(** * The generated dependency-injection container [dic]

    A shallow embedding of the generated package [dic] (a typed facade over a
    [di.Container] of the sarulabs/di library) and of the properties stated
    for it.

    Layout:
    - [Go]        : the fragment of Go's dynamic semantics the package relies
                    on (interface values, errors, panics, contexts);
    - [DiLibrary] : the interface of the di library as the package uses it;
    - [dic]       : the package itself, function by function;
    - [Di]        : the scoped container of the di library;
    - the theorems. *)

From stdpp Require Import base option list strings gmap.

Set Default Proof Using "Type".

(** ** Go values *)

Module Go.

(** [error]: [None] is Go's [nil] error, [Some msg] an error whose [Error()]
    text is [msg]. *)
Definition error := option string.

(** [errors.New(msg)] *)
Definition errors_New (msg : string) : error := Some msg.

(** [fmt.Errorf(prefix + "%v", err)] for a non-nil [err] with text [msg] *)
Definition fmt_Errorf (prefix msg : string) : error := Some (prefix +:+ msg).

(** What a [panic] carries. *)
Inductive panic_value :=
| panic_string (s : string)      (* panic("...") *)
| panic_error (msg : string)     (* panic(err), err non-nil *)
| panic_nil_dereference.         (* runtime error: nil pointer dereference *)

(** A call either returns or panics. *)
Inductive outcome (A : Type) :=
| Ret (a : A)
| Panic (p : panic_value).
Arguments Ret {A} a.
Arguments Panic {A} p.

(** Computations over a heap [W]: the heap is threaded through, and is still
    there after a panic. *)
Definition M (W A : Type) : Type := W → outcome A * W.

Global Instance M_ret W : MRet (M W) := λ A a w, (Ret a, w).
Global Instance M_bind W : MBind (M W) := λ A B k m w,
  match m w with
  | (Ret a, w') => k a w'
  | (Panic p, w') => (Panic p, w')
  end.
Definition panic {W A} (p : panic_value) : M W A := λ w, (Panic p, w).

Definition panics {W A} (m : M W A) (w : W) : Prop :=
  ∃ p w', m w = (Panic p, w').

End Go.
Export Go.

(** ** Interface values

    A [*Container] is a pointer to a struct with one field, the wrapped
    [di.Container]; the di container itself is an object of the di library,
    named here by its address. *)

Abbreviation di_Container := nat (only parsing).

Record Container := { ctn : di_Container }.

(** Keys of a [context.Context] are interface values compared with [==]:
    a dynamic type and (for the string-based key types in use) a string. *)
Record ctxkey := { key_type : string; key_value : string }.

Global Instance ctxkey_eq_dec : EqDecision ctxkey.
Proof. solve_decision. Defined.

(** [dingo.ContainerKey(s)] *)
Definition ContainerKey (s : string) : ctxkey :=
  {| key_type := "dingo.ContainerKey"; key_value := s |}.

(** [interface{}]: the nil interface, a [*Container] (possibly a nil
    pointer), a [*http.Request] (possibly a nil pointer) or a value of any
    other dynamic type, given by the name of that type and the identity of
    the value. *)
Inductive any :=
| nil_any
| ptr_Container (c : option Container)
| ptr_Request (r : option http_Request)
| dyn (ty : string) (id : nat)
with http_Request :=
| mk_Request (ctx : list (ctxkey * any)).

(** [r.Context()]: the values attached to the request, innermost first
    (the background context has none). *)
Definition Context (r : http_Request) : list (ctxkey * any) :=
  match r with mk_Request ctx => ctx end.

(** [ctx.Value(key)]: the value of the innermost binding of [key], or the nil
    interface. *)
Fixpoint Value (ctx : list (ctxkey * any)) (key : ctxkey) : any :=
  match ctx with
  | [] => nil_any
  | (k, v) :: ctx' => if decide (k = key) then v else Value ctx' key
  end.

(** ** The di library, as the package sees it

    [di.Container] is an interface and [*di.Builder] an opaque object; the
    package only calls their methods.  A method of a container runs on the
    heap of the library's objects and may return or panic; the methods of a
    builder thread the builder's state.  A [Container] of the package always
    wraps a container of the library (the package creates them in [Build],
    [SubContainer] and [Parent] only); where the library returns an error,
    the container returned with it is not looked at. *)

Class DiLibrary := {
  di_world : Type;
  di_Builder : Type;
  di_Def : Type;
  (* di.NewBuilder(scopes...) *)
  di_NewBuilder : list string → di_Builder * error;
  (* Builder.Add(defs...) *)
  di_Builder_Add : list di_Def → di_Builder → di_Builder * error;
  (* Builder.Set(name, obj) *)
  di_Builder_Set : string → any → di_Builder → di_Builder * error;
  (* Builder.Build() *)
  di_Builder_Build : di_Builder → M di_world di_Container;
  di_Scope : di_Container → M di_world string;
  di_Parent : di_Container → M di_world (option di_Container);
  di_SubContainer : di_Container → M di_world (di_Container * error);
  di_SafeGet : di_Container → string → M di_world (any * error);
  di_Get : di_Container → string → M di_world any;
  di_UnscopedSafeGet : di_Container → string → M di_world (any * error);
  di_UnscopedGet : di_Container → string → M di_world any;
  di_Clean : di_Container → M di_world error;
  di_DeleteWithSubContainers : di_Container → M di_world error;
  di_Delete : di_Container → M di_world error;
  di_IsClosed : di_Container → M di_world bool
}.

(** Modelled from the spec: the scope names [di.App], [di.Request] and
    [di.SubRequest] are constants of the di library; the specification gives
    the three-level list, widest first, as ["app"; "request"; "subrequest"]. *)
Definition di_App : string := "app".

(** Modelled from the spec: [di.Request], the second of the three levels. *)
Definition di_Request : string := "request".

(** Modelled from the spec: [di.SubRequest], the narrowest of the three
    levels. *)
Definition di_SubRequest : string := "subrequest".

(** The provider of the application ([gotham/app/provider]) and the generated
    [getDiDefs], which turns its definitions into [di.Def]s: [Provider_Load]
    is what [Load] does to a fresh [&Provider{}]. *)
Class ProviderPkg `{DiLibrary} := {
  Provider : Type;
  Provider_Load : Provider * error;
  getDiDefs : Provider → list di_Def
}.

(** ** The objects of the container

    One group of accessors is generated per object of the provider. *)
Inductive Object :=
| AuthControllerObj | AuthServiceObj | DbObj | DbPoolObj
| IsAdminMiddlewareObj | IsVerifiedMiddlewareObj
| UserControllerObj | UserRepositoryObj | UserServiceObj.

Global Instance Object_eq_dec : EqDecision Object.
Proof. solve_decision. Defined.

Definition all_objects : list Object :=
  [AuthControllerObj; AuthServiceObj; DbObj; DbPoolObj; IsAdminMiddlewareObj;
   IsVerifiedMiddlewareObj; UserControllerObj; UserRepositoryObj; UserServiceObj].

(** The name under which the object is registered. *)
Definition obj_name (x : Object) : string :=
  match x with
  | AuthControllerObj => "auth-controller"
  | AuthServiceObj => "auth-service"
  | DbObj => "db"
  | DbPoolObj => "db-pool"
  | IsAdminMiddlewareObj => "is-admin-middleware"
  | IsVerifiedMiddlewareObj => "is-verified-middleware"
  | UserControllerObj => "user-controller"
  | UserRepositoryObj => "user-repository"
  | UserServiceObj => "user-service"
  end.

(** The declared type of the object, as it is printed in the messages. *)
Definition obj_type (x : Object) : string :=
  match x with
  | AuthControllerObj => "controllers.AuthController"
  | AuthServiceObj => "services.IAuthService"
  | DbObj => "*gorm.DB"
  | DbPoolObj => "gorm.Dialector"
  | IsAdminMiddlewareObj => "middlewares.IsAdmin"
  | IsVerifiedMiddlewareObj => "middlewares.IsVerified"
  | UserControllerObj => "controllers.UserController"
  | UserRepositoryObj => "repositories.IUserRepository"
  | UserServiceObj => "services.IUserService"
  end.

(** The declared types themselves live in the application's packages and in
    gorm: for each object, the Go type [T], its zero value, and the type
    assertion [i.(T)] ([None] when the dynamic type of [i] is not [T], or
    does not implement it when [T] is an interface). *)
Class GoTypes := {
  GoT : Object → Type;
  zero : ∀ x, GoT x;
  assert : ∀ x, any → option (GoT x)
}.

(** [o, ok := i.(T)]: on failure [o] is the zero value of [T]. *)
Definition type_assert `{GoTypes} (x : Object) (i : any) : GoT x * bool :=
  match assert x i with
  | Some o => (o, true)
  | None => (zero x, false)
  end.

(** [c, ok := i.( *Container)] *)
Definition assert_Container (i : any) : option Container * bool :=
  match i with
  | ptr_Container c => (c, true)
  | _ => (None, false)
  end.

(** [r, ok := i.( *http.Request)] *)
Definition assert_Request (i : any) : option http_Request * bool :=
  match i with
  | ptr_Request r => (r, true)
  | _ => (None, false)
  end.

(** ** The package [dic] *)

Section dic.
Context `{Lib : DiLibrary} `{Prov : !ProviderPkg} `{Types : GoTypes}.

Local Abbreviation M := (Go.M di_world).

(** [c.ctn], for a receiver [c] that may be a nil pointer *)
Definition field_ctn (c : option Container) : M di_Container :=
  match c with
  | Some c => mret (ctn c)
  | None => panic panic_nil_dereference
  end.

(** *** The resolver

    [C] is a package variable holding a function; this is its initial
    value. *)
Definition C (i : any) : M (option Container) :=
  let '(c, ok) := assert_Container i in
  if ok then mret c else
  let '(r, ok) := assert_Request i in
  if negb ok then panic (panic_string "could not get the container with dic.C()") else
  match r with
  | None => panic panic_nil_dereference
  | Some r =>
      let '(c, ok) := assert_Container (Value (Context r) (ContainerKey "dingo")) in
      if negb ok
      then panic (panic_string
             "could not get the container from the given *http.Request in dic.C()")
      else mret c
  end.

(** *** The builder *)

Record builder := mk_builder { b_builder : di_Builder }.

(** The loop of [NewBuilder]: the definitions are added one by one, and the
    first error ends the loop.  The result is the state the [di.Builder] is
    left in, and that error. *)
Fixpoint add_each (defs : list di_Def) (b : di_Builder) : di_Builder * error :=
  match defs with
  | [] => (b, None)
  | d :: defs' =>
      let '(b', err) := di_Builder_Add [d] b in
      match err with
      | Some _ => (b', err)
      | None => add_each defs' b'
      end
  end.

Definition NewBuilder (scopes : list string) : option builder * error :=
  let scopes :=
    if decide (length scopes = 0) then [di_App; di_Request; di_SubRequest] else scopes in
  let '(b, err) := di_NewBuilder scopes in
  match err with
  | Some e => (None, fmt_Errorf "could not create di.Builder: " e)
  | None =>
      let '(provider, err) := Provider_Load in
      match err with
      | Some e =>
          (None, fmt_Errorf
             "could not load definitions with the Provider (Provider from gotham/app/provider): " e)
      | None =>
          let '(b, err) := add_each (getDiDefs provider) b in
          match err with
          | Some e => (None, fmt_Errorf "could not add di.Def in di.Builder: " e)
          | None => (Some (mk_builder b), None)
          end
      end
  end.

(** [Add] and [Set] change the [di.Builder] the [builder] points to. *)
Definition builder_Add (b : builder) (defs : list di_Def) : builder * error :=
  let '(b', err) := di_Builder_Add defs (b_builder b) in (mk_builder b', err).

Definition builder_Set (b : builder) (name : string) (obj : any) : builder * error :=
  let '(b', err) := di_Builder_Set name obj (b_builder b) in (mk_builder b', err).

Definition Build (b : builder) : M (option Container) :=
  h ← di_Builder_Build (b_builder b);
  mret (Some {| ctn := h |}).

Definition NewContainer (scopes : list string) : M (option Container * error) :=
  let '(b, err) := NewBuilder scopes in
  match err with
  | Some _ => mret (None, err)
  | None =>
      match b with
      | None => panic panic_nil_dereference
      | Some b => c ← Build b; mret (c, None)
      end
  end.

(** *** The untyped methods of [Container] *)

Definition Scope (c : option Container) : M string :=
  h ← field_ctn c; di_Scope h.

Definition Parent (c : option Container) : M (option Container) :=
  h ← field_ctn c;
  p ← di_Parent h;
  match p with
  | Some p => mret (Some {| ctn := p |})
  | None => mret None
  end.

Definition SubContainer (c : option Container) : M (option Container * error) :=
  h ← field_ctn c;
  '(sub, err) ← di_SubContainer h;
  match err with
  | Some _ => mret (None, err)
  | None => mret (Some {| ctn := sub |}, None)
  end.

Definition SafeGet (c : option Container) (name : string) : M (any * error) :=
  h ← field_ctn c; di_SafeGet h name.

Definition Get (c : option Container) (name : string) : M any :=
  h ← field_ctn c; di_Get h name.

Definition UnscopedSafeGet (c : option Container) (name : string) : M (any * error) :=
  h ← field_ctn c; di_UnscopedSafeGet h name.

Definition UnscopedGet (c : option Container) (name : string) : M any :=
  h ← field_ctn c; di_UnscopedGet h name.

Definition Clean (c : option Container) : M error :=
  h ← field_ctn c; di_Clean h.

Definition DeleteWithSubContainers (c : option Container) : M error :=
  h ← field_ctn c; di_DeleteWithSubContainers h.

Definition Delete (c : option Container) : M error :=
  h ← field_ctn c; di_Delete h.

Definition IsClosed (c : option Container) : M bool :=
  h ← field_ctn c; di_IsClosed h.

(** *** The typed accessors

    The five functions generated for an object [x] are the same text for
    every object, up to its name and its type. *)

Definition cast_message (x : Object) : string :=
  "could get '" +:+ obj_name x +:+ "' because the object could not be cast to "
  +:+ obj_type x.

Definition SafeGetObj (x : Object) (c : option Container) : M (GoT x * error) :=
  h ← field_ctn c;
  '(i, err) ← di_SafeGet h (obj_name x);
  match err with
  | Some _ => let eo := zero x in mret (eo, err)
  | None =>
      let '(o, ok) := type_assert x i in
      if negb ok then mret (o, errors_New (cast_message x)) else mret (o, None)
  end.

Definition GetObj (x : Object) (c : option Container) : M (GoT x) :=
  '(o, err) ← SafeGetObj x c;
  match err with
  | Some e => panic (panic_error e)
  | None => mret o
  end.

Definition UnscopedSafeGetObj (x : Object) (c : option Container) : M (GoT x * error) :=
  h ← field_ctn c;
  '(i, err) ← di_UnscopedSafeGet h (obj_name x);
  match err with
  | Some _ => let eo := zero x in mret (eo, err)
  | None =>
      let '(o, ok) := type_assert x i in
      if negb ok then mret (o, errors_New (cast_message x)) else mret (o, None)
  end.

Definition UnscopedGetObj (x : Object) (c : option Container) : M (GoT x) :=
  '(o, err) ← UnscopedSafeGetObj x c;
  match err with
  | Some e => panic (panic_error e)
  | None => mret o
  end.

(** The free function of [x], with [resolver] the function held by the
    package variable [C] when it is called. *)
Definition FreeObj (resolver : any → M (option Container)) (x : Object) (i : any)
  : M (GoT x) :=
  c ← resolver i; GetObj x c.

(** The generated functions, object by object. *)

Definition SafeGetAuthController := SafeGetObj AuthControllerObj.
Definition GetAuthController := GetObj AuthControllerObj.
Definition UnscopedSafeGetAuthController := UnscopedSafeGetObj AuthControllerObj.
Definition UnscopedGetAuthController := UnscopedGetObj AuthControllerObj.
Definition AuthController (resolver : any → M (option Container)) :=
  FreeObj resolver AuthControllerObj.

Definition SafeGetAuthService := SafeGetObj AuthServiceObj.
Definition GetAuthService := GetObj AuthServiceObj.
Definition UnscopedSafeGetAuthService := UnscopedSafeGetObj AuthServiceObj.
Definition UnscopedGetAuthService := UnscopedGetObj AuthServiceObj.
Definition AuthService (resolver : any → M (option Container)) :=
  FreeObj resolver AuthServiceObj.

Definition SafeGetDb := SafeGetObj DbObj.
Definition GetDb := GetObj DbObj.
Definition UnscopedSafeGetDb := UnscopedSafeGetObj DbObj.
Definition UnscopedGetDb := UnscopedGetObj DbObj.
Definition Db (resolver : any → M (option Container)) :=
  FreeObj resolver DbObj.

Definition SafeGetDbPool := SafeGetObj DbPoolObj.
Definition GetDbPool := GetObj DbPoolObj.
Definition UnscopedSafeGetDbPool := UnscopedSafeGetObj DbPoolObj.
Definition UnscopedGetDbPool := UnscopedGetObj DbPoolObj.
Definition DbPool (resolver : any → M (option Container)) :=
  FreeObj resolver DbPoolObj.

Definition SafeGetIsAdminMiddleware := SafeGetObj IsAdminMiddlewareObj.
Definition GetIsAdminMiddleware := GetObj IsAdminMiddlewareObj.
Definition UnscopedSafeGetIsAdminMiddleware := UnscopedSafeGetObj IsAdminMiddlewareObj.
Definition UnscopedGetIsAdminMiddleware := UnscopedGetObj IsAdminMiddlewareObj.
Definition IsAdminMiddleware (resolver : any → M (option Container)) :=
  FreeObj resolver IsAdminMiddlewareObj.

Definition SafeGetIsVerifiedMiddleware := SafeGetObj IsVerifiedMiddlewareObj.
Definition GetIsVerifiedMiddleware := GetObj IsVerifiedMiddlewareObj.
Definition UnscopedSafeGetIsVerifiedMiddleware := UnscopedSafeGetObj IsVerifiedMiddlewareObj.
Definition UnscopedGetIsVerifiedMiddleware := UnscopedGetObj IsVerifiedMiddlewareObj.
Definition IsVerifiedMiddleware (resolver : any → M (option Container)) :=
  FreeObj resolver IsVerifiedMiddlewareObj.

Definition SafeGetUserController := SafeGetObj UserControllerObj.
Definition GetUserController := GetObj UserControllerObj.
Definition UnscopedSafeGetUserController := UnscopedSafeGetObj UserControllerObj.
Definition UnscopedGetUserController := UnscopedGetObj UserControllerObj.
Definition UserController (resolver : any → M (option Container)) :=
  FreeObj resolver UserControllerObj.

Definition SafeGetUserRepository := SafeGetObj UserRepositoryObj.
Definition GetUserRepository := GetObj UserRepositoryObj.
Definition UnscopedSafeGetUserRepository := UnscopedSafeGetObj UserRepositoryObj.
Definition UnscopedGetUserRepository := UnscopedGetObj UserRepositoryObj.
Definition UserRepository (resolver : any → M (option Container)) :=
  FreeObj resolver UserRepositoryObj.

Definition SafeGetUserService := SafeGetObj UserServiceObj.
Definition GetUserService := GetObj UserServiceObj.
Definition UnscopedSafeGetUserService := UnscopedSafeGetObj UserServiceObj.
Definition UnscopedGetUserService := UnscopedGetObj UserServiceObj.
Definition UserService (resolver : any → M (option Container)) :=
  FreeObj resolver UserServiceObj.

End dic.

(** ** The scoped container of the di library

    The package delegates every untyped operation to a [di.Container]; the
    library is a dependency of the repository and its text is not part of
    the package.  This module gives the container the behaviour the
    specification describes (sections 3, 4 and 7). *)

Module Di.

(** Modelled from the spec: the build function of a Definition,
    [build: (Container) -> (value, error)].  It is opaque to the container;
    what it can do is return, create a new value (whose identity it is
    given), and retrieve another object from the container it was handed. *)
Inductive BuildFn :=
| Done (v : any) (e : error)
| New (k : nat → BuildFn)
| Need (name : string) (k : any * error → BuildFn).

(** Modelled from the spec: a Definition (section 3),
    [{name, scope, build, close, unshared}]; [build] may be missing (nil),
    which the builder rejects. *)
Record Def := {
  def_name : string;
  def_scope : string;
  def_build : option BuildFn;
  def_close : option (any → error);
  def_unshared : bool
}.

(** Modelled from the spec: the Builder (sections 2 and 4.1), the declared
    scope list and the registry of the definitions added so far. *)
Record Builder := {
  b_scopes : list string;
  b_defs : gmap string Def
}.

(** Modelled from the spec: a Container (section 3).  [n_scopes] and [n_defs]
    are the immutable registry it was built from; the scope is kept as its
    position [n_level] in the scope list; the children of a container are the
    live containers whose parent it is; [n_pending] is set by a [Delete] that
    had to wait for children; [n_unscoped] are the chains synthesized by
    unscoped retrieval. *)
Record Node := {
  n_scopes : list string;
  n_defs : gmap string Def;
  n_level : nat;
  n_parent : option di_Container;
  n_cache : gmap string any;
  n_closed : bool;
  n_pending : bool;
  n_unscoped : list di_Container
}.

(** Modelled from the spec: the tree of Containers (section 3), as the heap
    of the library: the containers by address, the next free address, and
    the identity the next new value will get. *)
Record World := {
  nodes : gmap di_Container Node;
  next_ctn : di_Container;
  next_obj : nat
}.

(** Modelled from the spec: the heap before any container is built. *)
Definition empty_world : World :=
  {| nodes := ∅; next_ctn := 0; next_obj := 0 |}.

(** Modelled from the spec: updates of one field of the heap or of a
    Container (section 3), the others unchanged. *)
Definition set_nodes (w : World) (m : gmap di_Container Node) : World :=
  {| nodes := m; next_ctn := next_ctn w; next_obj := next_obj w |}.

(** Modelled from the spec: the Container with another cache. *)
Definition set_cache (n : Node) (c : gmap string any) : Node :=
  {| n_scopes := n_scopes n; n_defs := n_defs n; n_level := n_level n;
     n_parent := n_parent n; n_cache := c; n_closed := n_closed n;
     n_pending := n_pending n; n_unscoped := n_unscoped n |}.

(** Modelled from the spec: the Container marked pending-deletion
    (section 4.4). *)
Definition set_pending (n : Node) : Node :=
  {| n_scopes := n_scopes n; n_defs := n_defs n; n_level := n_level n;
     n_parent := n_parent n; n_cache := n_cache n; n_closed := n_closed n;
     n_pending := true; n_unscoped := n_unscoped n |}.

(** Modelled from the spec: the Container with another list of synthesized
    chains (section 4.3). *)
Definition set_unscoped (n : Node) (l : list di_Container) : Node :=
  {| n_scopes := n_scopes n; n_defs := n_defs n; n_level := n_level n;
     n_parent := n_parent n; n_cache := n_cache n; n_closed := n_closed n;
     n_pending := n_pending n; n_unscoped := l |}.

(** Modelled from the spec: a closed Container (section 4.4); its objects
    and its chains are gone. *)
Definition close_node (n : Node) : Node :=
  {| n_scopes := n_scopes n; n_defs := n_defs n; n_level := n_level n;
     n_parent := n_parent n; n_cache := ∅; n_closed := true;
     n_pending := n_pending n; n_unscoped := [] |}.

(** Modelled from the spec: the scope of a Container (section 3), the name
    at its level in the scope list. *)
Definition n_scope (n : Node) : string := default "" (n_scopes n !! n_level n).

(** Modelled from the spec: the position of a scope in the ScopeList
    (section 3), 0 for the widest. *)
Fixpoint scope_index (scopes : list string) (s : string) : option nat :=
  match scopes with
  | [] => None
  | s' :: scopes' => if decide (s' = s) then Some 0 else S <$> scope_index scopes' s
  end.

(** *** Errors (section 7) *)

(** Modelled from the spec: ClosedContainerError, an operation attempted
    after the container was closed. *)
Definition ErrClosed : error := Some "the container is closed".

(** Modelled from the spec: ScopeMismatch, the object's scope cannot be
    reached from the container without unscoped access. *)
Definition ErrScopeMismatch (name : string) : error :=
  Some ("could not get `" +:+ name +:+ "`: its scope is narrower than the container's").

(** Modelled from the spec: the error of looking up a Definition that is
    not in the registry. *)
Definition ErrUndefined (name : string) : error :=
  Some ("could not get `" +:+ name +:+ "`: the definition does not exist").

(** Modelled from the spec: BuildFailure, the error of the build function
    wrapped with the object name. *)
Definition ErrBuildFailure (name msg : string) : error :=
  Some ("could not build `" +:+ name +:+ "`: " +:+ msg).

(** Modelled from the spec: the error of [SubContainer()] at the narrowest
    scope, where no next-narrower scope exists. *)
Definition ErrNoSubScope : error := Some "there is no narrower scope".

(** Modelled from the spec: the error of an operation on an address that
    holds no container. *)
Definition ErrNoContainer : error := Some "the container does not exist".

(** *** Builder (section 4.1) *)

(** Modelled from the spec: a scope list has at least one element and no
    duplicates (ScopeList, section 3); anything else is a
    ConfigurationError. *)
Definition NewBuilder (scopes : list string) : Builder * error :=
  if decide (scopes = []) then
    ({| b_scopes := []; b_defs := ∅ |}, Some "invalid scope list: it is empty")
  else if decide (NoDup scopes) then
    ({| b_scopes := scopes; b_defs := ∅ |}, None)
  else
    ({| b_scopes := []; b_defs := ∅ |}, Some "invalid scope list: a scope is declared twice").

(** Modelled from the spec: each added Definition is validated against
    (a) scope is a known scope, (b) name is not already registered,
    (c) build function is non-nil; the error names the definition. *)
Definition add_def (d : Def) (b : Builder) : Builder * error :=
  if decide (def_scope d ∈ b_scopes b) then
    match b_defs b !! def_name d with
    | Some _ =>
        (b, Some ("could not add `" +:+ def_name d +:+ "`: the name is already registered"))
    | None =>
        match def_build d with
        | None =>
            (b, Some ("could not add `" +:+ def_name d +:+ "`: the build function is nil"))
        | Some _ =>
            ({| b_scopes := b_scopes b; b_defs := <[def_name d := d]> (b_defs b) |}, None)
        end
    end
  else
    (b, Some ("could not add `" +:+ def_name d +:+ "`: the scope `" +:+ def_scope d
              +:+ "` is not known")).

(** Modelled from the spec: [Add] fails fast on the first invalid
    definition. *)
Fixpoint Add (defs : list Def) (b : Builder) : Builder * error :=
  match defs with
  | [] => (b, None)
  | d :: defs' =>
      let '(b', err) := add_def d b in
      match err with
      | Some _ => (b', err)
      | None => Add defs' b'
      end
  end.

(** Modelled from the spec: [Set] wraps a pre-built value as a root-scope,
    already-satisfied definition; it bypasses the checks and silently shadows
    a definition of the same name. *)
Definition Set_ (name : string) (obj : any) (b : Builder) : Builder * error :=
  let d := {| def_name := name; def_scope := default "" (head (b_scopes b));
              def_build := Some (Done obj None); def_close := None;
              def_unshared := false |} in
  ({| b_scopes := b_scopes b; b_defs := <[name := d]> (b_defs b) |}, None).

(** Modelled from the spec: [Build] finalizes the registry into the root
    Container, which has the widest scope. *)
Definition root_node (b : Builder) : Node :=
  {| n_scopes := b_scopes b; n_defs := b_defs b; n_level := 0; n_parent := None;
     n_cache := ∅; n_closed := false; n_pending := false; n_unscoped := [] |}.

(** Modelled from the spec: [Build()] (section 4.1); the root Container is
    a new container of the heap. *)
Definition Build (b : Builder) (w : World) : di_Container * World :=
  (next_ctn w,
   {| nodes := <[next_ctn w := root_node b]> (nodes w);
      next_ctn := S (next_ctn w); next_obj := next_obj w |}).

(** *** Get / SafeGet (section 4.2) *)

(** Modelled from the spec: what a retrieval returns, [(value, error)]. *)
Definition result : Type := any * error.

(** Modelled from the spec: invoking [Definition.build(container)], with
    [get] the [SafeGet] of the container the build function is handed. *)
Fixpoint run_build (get : string → World → result * World) (b : BuildFn) (w : World)
  : result * World :=
  match b with
  | Done v e => ((v, e), w)
  | New k =>
      run_build get (k (next_obj w))
        {| nodes := nodes w; next_ctn := next_ctn w; next_obj := S (next_obj w) |}
  | Need name k =>
      let '(r, w') := get name w in run_build get (k r) w'
  end.

(** Modelled from the spec: "on success store in cache" (section 4.2). *)
Definition cache_put (h : di_Container) (name : string) (v : any) (w : World) : World :=
  match nodes w !! h with
  | Some n => set_nodes w (<[h := set_cache n (<[name := v]> (n_cache n))]> (nodes w))
  | None => w
  end.

(** Modelled from the spec: [SafeGet(name)] (section 4.2).  A closed
    container fails with a Closed error (section 4.4); a Definition of a
    wider scope is delegated to [parent.SafeGet]; one of this container's
    scope is returned from the cache or built, and cached on success unless
    [unshared]; a narrower one fails with ScopeMismatch; a build failure is
    propagated, wrapped with the name, and not cached (section 7).

    [depth] bounds how deep build functions may nest retrievals (a build
    asking for an object whose build asks for an object ...); [lvl] bounds
    the walk to the parents, by the level of the starting container. *)
Fixpoint safeGet (depth : nat) : nat → di_Container → string → World → result * World :=
  fix walk (lvl : nat) (h : di_Container) (name : string) (w : World) {struct lvl}
    : result * World :=
    match nodes w !! h with
    | None => ((nil_any, ErrNoContainer), w)
    | Some n =>
        if n_closed n then ((nil_any, ErrClosed), w) else
        match n_defs n !! name with
        | None => ((nil_any, ErrUndefined name), w)
        | Some d =>
            match scope_index (n_scopes n) (def_scope d) with
            | None => ((nil_any, ErrUndefined name), w)
            | Some i =>
                if decide (i < n_level n) then
                  match n_parent n, lvl with
                  | Some p, S lvl' => walk lvl' p name w
                  | _, _ => ((nil_any, ErrNoContainer), w)
                  end
                else if decide (i = n_level n) then
                  match n_cache n !! name with
                  | Some v => ((v, None), w)
                  | None =>
                      match depth, def_build d with
                      | S depth', Some b =>
                          let '((v, e), w') :=
                            run_build (safeGet depth' (n_level n) h) b w in
                          match e with
                          | Some msg => ((nil_any, ErrBuildFailure name msg), w')
                          | None =>
                              ((v, None),
                               if def_unshared d then w' else cache_put h name v w')
                          end
                      | _, _ =>
                          ((nil_any, ErrBuildFailure name "the build could not be run"), w)
                      end
                  end
                else ((nil_any, ErrScopeMismatch name), w)
            end
        end
    end.

(** Modelled from the spec: the level of the scope of a Container. *)
Definition level_of (w : World) (h : di_Container) : nat :=
  match nodes w !! h with
  | Some n => n_level n
  | None => 0
  end.

(** Modelled from the spec: [SafeGet(name)] on the container at [h]; the
    walk to the parents is as long as the level of [h] allows. *)
Definition SafeGet (depth : nat) (h : di_Container) (name : string) (w : World)
  : result * World :=
  safeGet depth (level_of w h) h name w.

(** *** SubContainer, Parent, Scope, IsClosed *)

(** Modelled from the spec: [SubContainer()] creates a child at the
    next-narrower scope; on a closed container it fails with a Closed
    error. *)
Definition SubContainer (h : di_Container) (w : World)
  : (option di_Container * error) * World :=
  match nodes w !! h with
  | None => ((None, ErrNoContainer), w)
  | Some n =>
      if n_closed n then ((None, ErrClosed), w)
      else if decide (S (n_level n) < length (n_scopes n)) then
        let child :=
          {| n_scopes := n_scopes n; n_defs := n_defs n; n_level := S (n_level n);
             n_parent := Some h; n_cache := ∅; n_closed := false;
             n_pending := false; n_unscoped := [] |} in
        ((Some (next_ctn w), None),
         {| nodes := <[next_ctn w := child]> (nodes w);
            next_ctn := S (next_ctn w); next_obj := next_obj w |})
      else ((None, ErrNoSubScope), w)
  end.

(** Modelled from the spec: the parent reference of a Container, none for
    the root (section 3). *)
Definition Parent (h : di_Container) (w : World) : option di_Container :=
  n ← nodes w !! h; n_parent n.

(** Modelled from the spec: [Scope()], the scope of the Container. *)
Definition Scope (h : di_Container) (w : World) : string :=
  match nodes w !! h with
  | Some n => n_scope n
  | None => ""
  end.

(** Modelled from the spec: [IsClosed] reports whether the container has
    been closed (section 4.4); an address that holds no container counts as
    closed. *)
Definition IsClosed (h : di_Container) (w : World) : bool :=
  match nodes w !! h with
  | Some n => n_closed n
  | None => true
  end.

(** *** Delete / DeleteWithSubContainers (section 4.4) *)

(** Modelled from the spec: the children of a Container (section 3) are the
    live containers whose parent pointer references it. *)
Definition is_child_of (p : di_Container) (n : Node) : bool :=
  bool_decide (n_parent n = Some p) && negb (n_closed n).

(** Modelled from the spec: "children exist" (section 4.4). *)
Definition has_children (w : World) (p : di_Container) : bool :=
  bool_decide (map_Exists (λ _ n, is_child_of p n = true) (nodes w)).

(** Modelled from the spec: the containers reachable from [h] through
    children (section 4.4): [x] is [h], or the parent of [x] is reachable. *)
Fixpoint under_aux (w : World) (fuel : nat) (h x : di_Container) : bool :=
  if decide (x = h) then true else
  match fuel, nodes w !! x with
  | S fuel', Some n =>
      match n_parent n with
      | Some p => under_aux w fuel' h p
      | None => false
      end
  | _, _ => false
  end.

(** Modelled from the spec: [x] is [h] or a descendant of [h]; the walk up
    from [x] is as long as the level of [x]. *)
Definition under (w : World) (h x : di_Container) : bool :=
  under_aux w (level_of w x) h x.

(** Modelled from the spec: the close hook of a cached object, the [close]
    of its Definition when it has one (section 3). *)
Definition close_hook (n : Node) (name : string) (v : any) : error :=
  match n_defs n !! name with
  | Some d =>
      match def_close d with
      | Some f => f v
      | None => None
      end
  | None => None
  end.

(** Modelled from the spec: running the close hooks on every cached object
    of a Container; the errors are collected. *)
Definition close_errors (n : Node) : list string :=
  omap (λ '(name, v), close_hook n name v) (map_to_list (n_cache n)).

(** Modelled from the spec: the close hooks of the live containers under
    [h] run deepest scope first (section 3, Lifecycle); these are their
    errors, in that order. *)
Definition teardown_errors (w : World) (h : di_Container) : list string :=
  l ← reverse (seq 0 (S (foldr max 0 (n_level ∘ snd <$> map_to_list (nodes w)))));
  '(x, n) ← map_to_list (nodes w);
  if under w h x && negb (n_closed n) && bool_decide (n_level n = l)
  then close_errors n else [].

(** Modelled from the spec: closing [h] with everything below it, children
    before parents; the errors of the close hooks are collected and do not
    stop the teardown. *)
Definition delete_under (h : di_Container) (w : World) : list string * World :=
  (teardown_errors w h,
   set_nodes w (map_imap (λ x n, Some (if under w h x then close_node n else n)) (nodes w))).

(** Modelled from the spec: a container whose [Delete] was deferred is
    closed once its last child is deleted; this may in turn release its own
    parent. *)
Fixpoint settle (fuel : nat) (p : option di_Container) (w : World) : list string * World :=
  match fuel, p with
  | S fuel', Some p =>
      match nodes w !! p with
      | Some n =>
          if n_pending n && negb (n_closed n) && negb (has_children w p) then
            let '(errs, w') := delete_under p w in
            let '(errs', w'') := settle fuel' (n_parent n) w' in
            (errs ++ errs', w'')
          else ([], w)
      | None => ([], w)
      end
  | _, _ => ([], w)
  end.

(** Modelled from the spec: close-hook errors are collected and reported
    (section 7): no error when none failed, else one error with all the
    messages. *)
Definition join_errors (errs : list string) : error :=
  match errs with
  | [] => None
  | _ => Some (String.concat "; " errs)
  end.

(** Modelled from the spec: [DeleteWithSubContainers] (section 4.4) closes
    every container below [h], then [h], unconditionally; a parent whose
    [Delete] was waiting for this child is then closed too.  On a closed
    container it fails with a Closed error. *)
Definition DeleteWithSubContainers (h : di_Container) (w : World) : error * World :=
  match nodes w !! h with
  | None => (ErrNoContainer, w)
  | Some n =>
      if n_closed n then (ErrClosed, w) else
      let '(errs, w1) := delete_under h w in
      let '(errs', w2) := settle (n_level n) (n_parent n) w1 in
      (join_errors (errs ++ errs'), w2)
  end.

(** Modelled from the spec: [Delete] is [DeleteWithSubContainers] when no
    child exists; otherwise it marks the container pending-deletion and
    returns without closing. *)
Definition Delete (h : di_Container) (w : World) : error * World :=
  match nodes w !! h with
  | None => (ErrNoContainer, w)
  | Some n =>
      if n_closed n then (ErrClosed, w)
      else if has_children w h then (None, set_nodes w (<[h := set_pending n]> (nodes w)))
      else DeleteWithSubContainers h w
  end.

(** *** UnscopedSafeGet / Clean (section 4.3) *)

(** Modelled from the spec: the intermediate sub-containers of a
    synthesized chain (section 4.3), [k] further levels below [h]. *)
Fixpoint descend (k : nat) (h : di_Container) (w : World)
  : (option di_Container * error) * World :=
  match k with
  | 0 => ((Some h, None), w)
  | S k' =>
      let '((c, err), w') := SubContainer h w in
      match c, err with
      | Some c, None => descend k' c w'
      | _, _ => ((None, err), w')
      end
  end.

(** Modelled from the spec: "the synthesized chain is tracked internally"
    (section 4.3), by its topmost container. *)
Definition track (h top : di_Container) (w : World) : World :=
  match nodes w !! h with
  | Some n => set_nodes w (<[h := set_unscoped n (top :: n_unscoped n)]> (nodes w))
  | None => w
  end.

(** Modelled from the spec: when the Definition's scope is narrower than the
    container's, a fresh chain of sub-containers down to that scope is
    synthesized and remembered, and the object is built there; otherwise the
    retrieval is [SafeGet]. *)
Definition UnscopedSafeGet (depth : nat) (h : di_Container) (name : string) (w : World)
  : result * World :=
  match nodes w !! h with
  | None => SafeGet depth h name w
  | Some n =>
      match n_defs n !! name ≫= (λ d, scope_index (n_scopes n) (def_scope d)) with
      | None => SafeGet depth h name w
      | Some i =>
          if decide (n_level n < i) then
            let '((top, err), w1) := SubContainer h w in
            match top, err with
            | Some top, None =>
                let '((leaf, err), w2) := descend (i - S (n_level n)) top (track h top w1) in
                match leaf, err with
                | Some leaf, None => SafeGet depth leaf name w2
                | _, _ => ((nil_any, err), w2)
                end
            | _, _ => ((nil_any, err), w1)
            end
          else SafeGet depth h name w
      end
  end.

(** Modelled from the spec: destroying the chains one after the other,
    running their close hooks (section 4.3). *)
Fixpoint delete_chains (chains : list di_Container) (w : World) : list string * World :=
  match chains with
  | [] => ([], w)
  | c :: chains' =>
      let '(errs, w') := delete_under c w in
      let '(errs', w'') := delete_chains chains' w' in
      (errs ++ errs', w'')
  end.

(** Modelled from the spec: [Clean()] destroys exactly the chains the
    container created; with no chain it does nothing.  The chains were
    children of the container, so a deferred [Delete] of it may now take
    effect. *)
Definition Clean (h : di_Container) (w : World) : error * World :=
  match nodes w !! h with
  | None => (None, w)
  | Some n =>
      let '(errs, w1) :=
        delete_chains (n_unscoped n)
          (set_nodes w (<[h := set_unscoped n []]> (nodes w))) in
      let '(errs', w2) := settle (S (n_level n)) (Some h) w1 in
      (join_errors (errs ++ errs'), w2)
  end.

(** *** The library as the package sees it *)

(** Modelled from the spec: the operations of the container return; none
    panics. *)
Definition lift {A} (f : World → A * World) : M World A :=
  λ w, let '(a, w') := f w in (Ret a, w').

(** Modelled from the spec: [Get] wraps [SafeGet] and converts any error
    into a fatal abort (section 4.2); so does [UnscopedGet] for
    [UnscopedSafeGet] (section 7). *)
Definition or_panic (m : M World result) : M World any :=
  '(v, err) ← m;
  match err with
  | Some e => panic (panic_error e)
  | None => mret v
  end.

(** Modelled from the spec: the di library with the Builder and the
    Container above, build functions nesting at most [depth] deep. *)
Definition library (depth : nat) : DiLibrary := {|
  di_world := World;
  di_Builder := Builder;
  di_Def := Def;
  di_NewBuilder := NewBuilder;
  di_Builder_Add := Add;
  di_Builder_Set := Set_;
  di_Builder_Build := λ b, lift (Build b);
  di_Scope := λ h, lift (λ w, (Scope h w, w));
  di_Parent := λ h, lift (λ w, (Parent h w, w));
  di_SubContainer := λ h,
    lift (λ w, let '((sub, err), w') := SubContainer h w in ((default h sub, err), w'));
  di_SafeGet := λ h name, lift (SafeGet depth h name);
  di_Get := λ h name, or_panic (lift (SafeGet depth h name));
  di_UnscopedSafeGet := λ h name, lift (UnscopedSafeGet depth h name);
  di_UnscopedGet := λ h name, or_panic (lift (UnscopedSafeGet depth h name));
  di_Clean := λ h, lift (Clean h);
  di_DeleteWithSubContainers := λ h, lift (DeleteWithSubContainers h);
  di_Delete := λ h, lift (Delete h);
  di_IsClosed := λ h, lift (λ w, (IsClosed h w, w))
|}.

End Di.

(** ** Programs over the library's containers

    What a program does to the heap of the library between two retrievals:
    any sequence of calls of the package. *)

Inductive call :=
| call_Build (b : Di.Builder)
| call_SubContainer (c : option Container)
| call_SafeGet (c : option Container) (name : string)
| call_Get (c : option Container) (name : string)
| call_UnscopedSafeGet (c : option Container) (name : string)
| call_UnscopedGet (c : option Container) (name : string)
| call_SafeGetObj (x : Object) (c : option Container)
| call_GetObj (x : Object) (c : option Container)
| call_UnscopedSafeGetObj (x : Object) (c : option Container)
| call_UnscopedGetObj (x : Object) (c : option Container)
| call_Clean (c : option Container)
| call_Delete (c : option Container)
| call_DeleteWithSubContainers (c : option Container).

(** The heap after a call made with the library at depth [depth]; the
    results are dropped, a panic is recovered from. *)
Definition run_call `{Types : GoTypes} (depth : nat) (k : call) (w : Di.World) : Di.World :=
  match k with
  | call_Build b =>
      (Build (Lib := Di.library depth) (mk_builder (Lib := Di.library depth) b) w).2
  | call_SubContainer c => (SubContainer (Lib := Di.library depth) c w).2
  | call_SafeGet c name => (SafeGet (Lib := Di.library depth) c name w).2
  | call_Get c name => (Get (Lib := Di.library depth) c name w).2
  | call_UnscopedSafeGet c name => (UnscopedSafeGet (Lib := Di.library depth) c name w).2
  | call_UnscopedGet c name => (UnscopedGet (Lib := Di.library depth) c name w).2
  | call_SafeGetObj x c => (SafeGetObj (Lib := Di.library depth) x c w).2
  | call_GetObj x c => (GetObj (Lib := Di.library depth) x c w).2
  | call_UnscopedSafeGetObj x c => (UnscopedSafeGetObj (Lib := Di.library depth) x c w).2
  | call_UnscopedGetObj x c => (UnscopedGetObj (Lib := Di.library depth) x c w).2
  | call_Clean c => (Clean (Lib := Di.library depth) c w).2
  | call_Delete c => (Delete (Lib := Di.library depth) c w).2
  | call_DeleteWithSubContainers c => (DeleteWithSubContainers (Lib := Di.library depth) c w).2
  end.

Definition run_calls `{Types : GoTypes} (depth : nat) (ks : list call) (w : Di.World)
  : Di.World :=
  foldl (λ w k, run_call depth k w) w ks.

(** The Definition a container has for a name. *)
Definition definition_of (w : Di.World) (c : Container) (name : string) : option Di.Def :=
  n ← Di.nodes w !! ctn c; Di.n_defs n !! name.

(** ** Vocabulary of the properties *)

(** What a panicking getter makes of the outcome of the safe one: the error
    becomes the panic, the value is passed on, a panic stays a panic. *)
Definition must {W A} (r : outcome (A * error) * W) : outcome A * W :=
  match r with
  | (Ret (o, None), w) => (Ret o, w)
  | (Ret (_, Some e), w) => (Panic (panic_error e), w)
  | (Panic p, w) => (Panic p, w)
  end.

(** What a method makes of a nil receiver: the dereference panics, and the
    heap is as it was. *)
Definition nil_dereference {W A} (w : W) : outcome A * W :=
  (Panic panic_nil_dereference, w).

(** The safe accessors, as a function of the outcome of the untyped
    retrieval. *)
Definition typed `{Lib : DiLibrary} `{Types : GoTypes} (x : Object) (r : outcome (any * error) * di_world)
  : outcome (GoT x * error) * di_world :=
  match r with
  | (Ret (i, Some e), w') => (Ret (zero x, Some e), w')
  | (Ret (i, None), w') =>
      match assert x i with
      | Some o => (Ret (o, None), w')
      | None => (Ret (zero x, Some (cast_message x)), w')
      end
  | (Panic p, w') => (Panic p, w')
  end.


(** The scopes [NewBuilder] hands to the library. *)
Definition scopes_or_default (scopes : list string) : list string :=
  match scopes with
  | [] => ["app"; "request"; "subrequest"]
  | _ => scopes
  end.

(** A scope list is valid: at least one scope, none twice. *)
Definition valid_scopes (S : list string) : Prop := S ≠ [] ∧ NoDup S.

(** A set of definitions is valid for a scope list: unique names, scopes of
    the list, and every definition has its build function. *)
Definition valid_defs (S : list string) (D : list Di.Def) : Prop :=
  NoDup (Di.def_name <$> D) ∧
  Forall (λ d, Di.def_scope d ∈ S ∧ is_Some (Di.def_build d)) D.

(** *** Well-formed heaps of the library *)

(** Every container is below the next free address, and a container with a
    parent is one level below it, shares its registry, and is closed when the
    parent is. *)
Definition heap_ok (w : Di.World) : Prop :=
  (∀ x n, Di.nodes w !! x = Some n → x < Di.next_ctn w) ∧
  (∀ x n p, Di.nodes w !! x = Some n → Di.n_parent n = Some p →
     ∃ np, Di.nodes w !! p = Some np ∧
           Di.n_level n = S (Di.n_level np) ∧
           Di.n_scopes n = Di.n_scopes np ∧
           Di.n_defs n = Di.n_defs np ∧
           (Di.n_closed np = true → Di.n_closed n = true)).

(** [w'] is a later heap than [w]: the containers of [w] are still there,
    with the same registry, level and parent; none was reopened; and a
    container that is still open has kept the objects it had. *)
Definition later (w w' : Di.World) : Prop :=
  ∀ x n, Di.nodes w !! x = Some n →
    ∃ n', Di.nodes w' !! x = Some n' ∧
          Di.n_scopes n' = Di.n_scopes n ∧
          Di.n_defs n' = Di.n_defs n ∧
          Di.n_level n' = Di.n_level n ∧
          Di.n_parent n' = Di.n_parent n ∧
          (Di.n_closed n' = false →
             Di.n_closed n = false ∧ Di.n_cache n ⊆ Di.n_cache n').

(** [w'] is [w] with objects added to caches, and nothing else changed:
    what a retrieval does to the heap. *)
Definition grows (w w' : Di.World) : Prop :=
  Di.next_ctn w' = Di.next_ctn w ∧
  ∀ x, match Di.nodes w !! x with
       | Some n => ∃ c, Di.nodes w' !! x = Some (Di.set_cache n c) ∧ Di.n_cache n ⊆ c
       | None => Di.nodes w' !! x = None
       end.

(** A step from [w] to [w'] that keeps a well-formed heap well formed, and
    leads to a later heap. *)
Definition good (w w' : Di.World) : Prop := heap_ok w → heap_ok w' ∧ later w w'.

(** The object a retrieval of [name] from [h] finds already built: the
    walk of [safeGet], without the build. *)
Fixpoint cached (lvl : nat) (h : di_Container) (name : string) (w : Di.World) : option any :=
  match Di.nodes w !! h with
  | None => None
  | Some n =>
      if Di.n_closed n then None else
      match Di.n_defs n !! name with
      | None => None
      | Some d =>
          match Di.scope_index (Di.n_scopes n) (Di.def_scope d) with
          | None => None
          | Some i =>
              if decide (i < Di.n_level n) then
                match Di.n_parent n, lvl with
                | Some p, S lvl' => cached lvl' p name w
                | _, _ => None
                end
              else if decide (i = Di.n_level n) then Di.n_cache n !! name
              else None
          end
      end
  end.

(** The statement that a retrieval which succeeded once returns the same
    instance ever after, while the container is open -- for every Definition,
    shared or not. *)
Definition SafeGet_always_cached `{Types : GoTypes} (depth : nat) : Prop :=
  ∀ (history future : list call) (c : Container) (name : string) (v : any) (w1 : Di.World),
    let w0 := run_calls depth history Di.empty_world in
    let w2 := run_calls depth future w1 in
    SafeGet (Lib := Di.library depth) (Some c) name w0 = (Ret (v, None), w1) →
    IsClosed (Lib := Di.library depth) (Some c) w2 = (Ret false, w2) →
    SafeGet (Lib := Di.library depth) (Some c) name w2 = (Ret (v, None), w2).

(** ** Instances used to run the definitions *)

(** Declared types as pointers to values named by their identity; the
    assertion compares the dynamic type with the declared one. *)
Definition example_types : GoTypes := {|
  GoT := λ _, option nat;
  zero := λ _, None;
  assert := λ x i,
    match i with
    | dyn ty id => if decide (ty = obj_type x) then Some (Some id) else None
    | _ => None
    end
|}.

(** A definition in the widest scope that builds a new value of the given
    dynamic type. *)
Definition example_def (name ty : string) (unshared : bool) : Di.Def :=
  {| Di.def_name := name; Di.def_scope := "app";
     Di.def_build := Some (Di.New (λ id, Di.Done (dyn ty id) None));
     Di.def_close := None; Di.def_unshared := unshared |}.

(** A provider with three objects: a database handle of the declared type,
    an "auth-controller" of a foreign type, and an "auth-service" that is
    built anew on every retrieval. *)
Definition example_defs : list Di.Def :=
  [example_def "db" "*gorm.DB" false;
   example_def "auth-controller" "string" false;
   example_def "auth-service" "services.IAuthService" true].

Definition example_provider (depth : nat) : ProviderPkg (H := Di.library depth) :=
  @Build_ProviderPkg (Di.library depth) (list Di.Def) (example_defs, None) (λ p, p).

(** A provider whose second definition repeats the name of the first, and
    whose third would be fine. *)
Definition failing_defs : list Di.Def :=
  [example_def "db" "*gorm.DB" false;
   example_def "db" "gorm.Dialector" false;
   example_def "user-service" "services.IUserService" false].

Definition failing_provider (depth : nat) : ProviderPkg (H := Di.library depth) :=
  @Build_ProviderPkg (Di.library depth) (list Di.Def) (failing_defs, None) (λ p, p).

(** The root container of that provider, and the heap it lives in. *)
Definition example_root : Container := {| ctn := 0 |}.

Definition example_builder : Di.Builder :=
  (Di.Add example_defs (Di.NewBuilder ["app"; "request"; "subrequest"]).1).1.

Definition example_world : Di.World := (Di.Build example_builder Di.empty_world).2.

(** A program that builds the root container and a request container below
    it, and one that goes on using and deleting containers. *)
Definition example_child : Container := {| ctn := 1 |}.

Definition example_history : list call :=
  [call_Build example_builder; call_SubContainer (Some example_root)].

Definition example_future : list call :=
  [call_SafeGet (Some example_root) "auth-service";
   call_SubContainer (Some example_child);
   call_UnscopedSafeGet (Some example_root) "db";
   call_GetObj AuthControllerObj (Some example_child);
   call_Delete (Some example_root);
   call_DeleteWithSubContainers (Some {| ctn := 2 |});
   call_Clean (Some example_root)].

(** A definition of the request scope, to be added to a builder. *)
Definition request_def : Di.Def :=
  {| Di.def_name := "req-user"; Di.def_scope := "request";
     Di.def_build :=
       Some (Di.Need "db" (λ r, Di.New (λ id, Di.Done (dyn "User" id) r.2)));
     Di.def_close := None; Di.def_unshared := false |}.

(** A request carrying the root container in its context. *)
Definition example_request : http_Request :=
  mk_Request [({| key_type := "string"; key_value := "dingo" |}, dyn "string" 1);
              (ContainerKey "dingo", ptr_Container (Some example_root))].

(** The scenario of the specification (section 8): a database connection of
    the application scope and a user of the request scope that is loaded
    through it. *)
Definition scenario_builder : Di.Builder :=
  (Di.Add [example_def "db" "*gorm.DB" false; request_def]
     (Di.NewBuilder ["app"; "request"; "subrequest"]).1).1.

(** The root container (0), a request container (1) and a sub-request
    container (2) below it. *)
Definition scenario_world : Di.World :=
  (Di.SubContainer 1 (Di.SubContainer 0 (Di.Build scenario_builder Di.empty_world).2).2).2.

(** ** The package [helpers]

    The pure helpers of the application: paging arithmetic, membership in
    slices, struct tags, duplicates, random strings and the table of the
    months.  (The hashing helpers and the floating-point scores are left to
    their libraries.) *)

Module helpers.

Import Stdlib.Strings.Ascii.
Local Open Scope Z_scope.

(** *** Go's [int]

    [int] is a 64-bit two's-complement integer on the platforms the server
    runs on; arithmetic wraps around. *)
Definition int_min : Z := - 2 ^ 63.
Definition int_max : Z := 2 ^ 63 - 1.
Definition is_int (z : Z) : Prop := int_min ≤ z ≤ int_max.

Definition wrap (z : Z) : Z := (z + 2 ^ 63) `mod` 2 ^ 64 - 2 ^ 63.

Definition int_add (a b : Z) : Z := wrap (a + b).
Definition int_sub (a b : Z) : Z := wrap (a - b).
Definition int_mul (a b : Z) : Z := wrap (a * b).
(** [a / b] for [b] other than 0: the quotient truncated toward zero. *)
Definition int_quot (a b : Z) : Z := wrap (a ÷ b).

(** *** Paging *)

Definition NextPageCal (page totalPage : Z) : Z :=
  if decide (page = totalPage) then page else int_add page 1.

Definition PrevPageCal (page : Z) : Z :=
  if decide (page > 1) then int_sub page 1 else page.

Definition OffsetCal (page limit : Z) : Z :=
  int_mul (int_sub page 1) limit.

Definition PercentCalculate (share denominator : Z) : Z :=
  let denominator := if decide (denominator = 0) then 1 else denominator in
  int_quot (int_mul 100 share) denominator.

(** *** Duplicates

    [uint] values are only compared, never computed with. *)

(** The loop of [RemoveDuplicateValues], with the map [keys] and the slice
    [lst] (the [list] of the source) it has built so far. *)
Fixpoint RemoveDuplicateValues_loop (intSlice : list N) (keys : gmap N bool) (lst : list N)
  : list N :=
  match intSlice with
  | [] => lst
  | entry :: intSlice' =>
      match keys !! entry with
      | Some _ => RemoveDuplicateValues_loop intSlice' keys lst
      | None =>
          RemoveDuplicateValues_loop intSlice' (<[entry := true]> keys) (lst ++ [entry])
      end
  end.

Definition RemoveDuplicateValues (intSlice : list N) : list N :=
  RemoveDuplicateValues_loop intSlice ∅ [].

(** *** Reflection

    What [reflect] shows of an [interface{}]: nothing for the nil interface,
    else the kind of its type and, as far as the helpers look, the elements
    of a slice and the tags of the fields of a struct. *)
Module reflect.
Inductive Kind :=
| Invalid | Bool | Int | Int8 | Int16 | Int32 | Int64
| Uint | Uint8 | Uint16 | Uint32 | Uint64 | Uintptr
| Float32 | Float64 | Complex64 | Complex128
| Array | Chan | Func | Interface | Map | Pointer | Slice | String | Struct
| UnsafePointer.

Global Instance Kind_eq_dec : EqDecision Kind.
Proof. solve_decision. Defined.
End reflect.

Record reflected (V : Type) := {
  kind : reflect.Kind;
  elems : list V;          (* s.Len(), s.Index(i).Interface() of a slice *)
  field_tags : list string (* rt.NumField(), rt.Field(i).Tag of a struct *)
}.
Arguments kind {V} _.
Arguments elems {V} _.
Arguments field_tags {V} _.

Section reflection.
(** The values held by interfaces, and [reflect.DeepEqual] on them. *)
Context {V : Type} (DeepEqual : V → V → bool).

(** [reflect.TypeOf(array).Kind()]: a method call on the nil [Type] that
    [TypeOf] returns for the nil interface panics. *)
Definition TypeOf_Kind (array : option (reflected V)) : outcome reflect.Kind :=
  match array with
  | Some a => Ret (kind a)
  | None => Panic panic_nil_dereference
  end.

(** The loop of [InArray]: it returns at the first element equal to [val]. *)
Fixpoint InArray_loop (val : V) (s : list V) : bool :=
  match s with
  | [] => false
  | e :: s' => if DeepEqual val e then true else InArray_loop val s'
  end.

Definition InArray (val : V) (array : option (reflected V)) : outcome bool :=
  match TypeOf_Kind array with
  | Panic p => Panic p
  | Ret k =>
      match k, array with
      | reflect.Slice, Some a => Ret (InArray_loop val (elems a))
      | _, _ => Ret false
      end
  end.

(** The loop of [InArrayDuplicate], with the [number] counted so far. *)
Fixpoint InArrayDuplicate_loop (val : V) (s : list V) (number : Z) : Z :=
  match s with
  | [] => number
  | e :: s' =>
      InArrayDuplicate_loop val s' (if DeepEqual val e then int_add number 1 else number)
  end.

Definition InArrayDuplicate (val : V) (array : option (reflected V)) : outcome Z :=
  match TypeOf_Kind array with
  | Panic p => Panic p
  | Ret k =>
      match k, array with
      | reflect.Slice, Some a => Ret (InArrayDuplicate_loop val (elems a) 0)
      | _, _ => Ret 0
      end
  end.

(** [f.Tag.Get(key)], the value the struct tag of a field gives a key, is
    the business of [reflect]. *)
Context (Tag_Get : string → string → string).

(** [strings.Split(v, ",")[0]]: the text before the first comma. *)
Fixpoint before_comma (v : string) : string :=
  match v with
  | EmptyString => EmptyString
  | String c v' => if decide (c = ","%char) then EmptyString else String c (before_comma v')
  end.

(** The loop of [TagControl] over the fields: the whole tag value of the
    first field whose tag names [tag], else [d]. *)
Fixpoint TagControl_loop (tag key : string) (fields : list string) (d : string) : string :=
  match fields with
  | [] => d
  | f :: fields' =>
      let v := before_comma (Tag_Get f key) in
      if decide (v = tag) then Tag_Get f key else TagControl_loop tag key fields' d
  end.

Definition TagControl (tag key : string) (s : option (reflected V)) (defaultV : string)
  : outcome string :=
  let d := defaultV in
  if decide (tag = "") then Ret d else
  match TypeOf_Kind s with
  | Panic p => Panic p
  | Ret k =>
      if decide (k ≠ reflect.Struct) then Panic (panic_string "bad type") else
      match s with
      | Some rt => Ret (TagControl_loop tag key (field_tags rt) d)
      | None => Panic panic_nil_dereference
      end
  end.

End reflection.

(** *** Random strings *)


Section random.
(** The state of the generator of [math/rand], and [rand.Intn]. *)
Context {G : Type} (Intn : Z → G → Z * G).



End random.

(** *** Months *)

Record MonthlyInformation := {
  Month : string;
  FullName : string;
  MouthID : Z
}.

Definition January : string := "January".
Definition February : string := "February".
Definition March : string := "March".
Definition April : string := "April".
Definition May : string := "May".
Definition June : string := "June".
Definition July : string := "July".
Definition August : string := "August".
Definition September : string := "September".
Definition October : string := "October".
Definition November : string := "November".
Definition December : string := "December".

Definition Months : gmap string MonthlyInformation :=
  list_to_map
    [(January, {| Month := January; FullName := "January"; MouthID := 1 |});
     (February, {| Month := February; FullName := "February"; MouthID := 2 |});
     (March, {| Month := March; FullName := "March"; MouthID := 3 |});
     (April, {| Month := April; FullName := "April"; MouthID := 4 |});
     (May, {| Month := May; FullName := "May"; MouthID := 5 |});
     (June, {| Month := June; FullName := "June"; MouthID := 6 |});
     (July, {| Month := July; FullName := "July"; MouthID := 7 |});
     (August, {| Month := August; FullName := "August"; MouthID := 8 |});
     (September, {| Month := September; FullName := "September"; MouthID := 9 |});
     (October, {| Month := October; FullName := "October"; MouthID := 10 |});
     (November, {| Month := November; FullName := "November"; MouthID := 11 |});
     (December, {| Month := December; FullName := "December"; MouthID := 12 |})].

(** [Months[m]]: the zero value for a key the map does not have. *)
Definition Months_at (m : string) : MonthlyInformation :=
  default {| Month := ""; FullName := ""; MouthID := 0 |} (Months !! m).

Definition GetMonthFullName (m : string) : string := FullName (Months_at m).

Definition GetMonthId (m : string) : Z := MouthID (Months_at m).

(** The loop of [GetMonthNameWithId].  Go ranges over a map in an order it
    does not specify: [order] is the order the entries come in. *)
Fixpoint GetMonthNameWithId_loop (order : list (string * MonthlyInformation)) (id : Z)
  : string :=
  match order with
  | [] => ""
  | (_, m) :: order' =>
      if decide (MouthID m = id) then FullName m else GetMonthNameWithId_loop order' id
  end.

(** [GetMonthNameWithId], for one order of the entries. *)
Definition GetMonthNameWithId (id : Z) : string :=
  GetMonthNameWithId_loop (map_to_list Months) id.

(** *** Vocabulary and examples *)

(** The text has a comma in it. *)
Definition has_comma (v : string) : Prop := ","%char ∈ String.list_ascii_of_string v.

(** The twelve months, in the order of the calendar. *)
Definition month_names : list string :=
  [January; February; March; April; May; June; July; August; September; October;
   November; December].

(** The entries of [Months], in the order of the calendar. *)
Definition calendar : list (string * MonthlyInformation) :=
  imap (λ i m, (m, {| Month := m; FullName := m; MouthID := Z.of_nat (S i) |})) month_names.

(** A slice of integers, compared with [==]. *)
Definition example_slice : reflected Z :=
  {| kind := reflect.Slice; elems := [3; 1; 3; 2]; field_tags := [] |}.

(** A struct of three fields whose tags have a value for the key "json"
    only, and the tags themselves as that value. *)
Definition example_Tag_Get (f key : string) : string :=
  if decide (key = "json") then f else "".

Definition example_struct : reflected Z :=
  {| kind := reflect.Struct; elems := [];
     field_tags := ["id"; "name,omitempty"; "name"] |}.


End helpers.

(** * Properties *)

(** ** The typed accessors *)

Section accessors.
Context `{Lib : DiLibrary} `{Types : GoTypes}.

Lemma SafeGetObj_typed x c w :
  SafeGetObj x (Some c) w = typed x (di_SafeGet (ctn c) (obj_name x) w).
Proof.
  unfold SafeGetObj, typed, type_assert, mbind, M_bind, mret, M_ret; simpl.
  destruct (di_SafeGet (ctn c) (obj_name x) w) as [[[i [e|]]|p] w']; simpl; try done.
  by destruct (assert x i).
Qed.

Lemma UnscopedSafeGetObj_typed x c w :
  UnscopedSafeGetObj x (Some c) w = typed x (di_UnscopedSafeGet (ctn c) (obj_name x) w).
Proof.
  unfold UnscopedSafeGetObj, typed, type_assert, mbind, M_bind, mret, M_ret; simpl.
  destruct (di_UnscopedSafeGet (ctn c) (obj_name x) w) as [[[i [e|]]|p] w']; simpl; try done.
  by destruct (assert x i).
Qed.

Lemma GetObj_must x c w : GetObj x c w = must (SafeGetObj x c w).
Proof.
  unfold GetObj, must, mbind, M_bind, mret, M_ret, panic.
  by destruct (SafeGetObj x c w) as [[[o [e|]]|p] w'].
Qed.

Lemma UnscopedGetObj_must x c w : UnscopedGetObj x c w = must (UnscopedSafeGetObj x c w).
Proof.
  unfold UnscopedGetObj, must, mbind, M_bind, mret, M_ret, panic.
  by destruct (UnscopedSafeGetObj x c w) as [[[o [e|]]|p] w'].
Qed.


(** C1. When the untyped retrieval of the object of a typed accessor
    [SafeGetX] succeeds with a value [i] whose dynamic type is not the declared
    type ([i.(T)] fails), [SafeGetX] returns -- it does not panic -- the zero
    value together with the "wrong type" error that names the object and the
    type, e.g. "could get 'auth-controller' because the object could not be
    cast to controllers.AuthController"; a failure of the retrieval itself is
    surfaced differently, as the error the container gave. *)
Theorem C1_wrong_type_is_an_error (x : Object) (c : Container) (i : any) (w w' : di_world) :
  di_SafeGet (ctn c) (obj_name x) w = (Ret (i, None), w') →
  assert x i = None →
  SafeGetObj x (Some c) w = (Ret (zero x, errors_New (cast_message x)), w')
  ∧ cast_message x
    = "could get '" +:+ obj_name x +:+ "' because the object could not be cast to "
      +:+ obj_type x
  ∧ cast_message AuthControllerObj
    = "could get 'auth-controller' because the object could not be cast to controllers.AuthController"
  ∧ cast_message DbObj = "could get 'db' because the object could not be cast to *gorm.DB"
  ∧ (∀ i0 e w0 w0', di_SafeGet (ctn c) (obj_name x) w0 = (Ret (i0, Some e), w0') →
       SafeGetObj x (Some c) w0 = (Ret (zero x, Some e), w0')).
Proof.
  intros Hget Hcast. repeat split.
  - by rewrite SafeGetObj_typed, Hget; simpl; rewrite Hcast.
  - intros i0 e w0 w0' H0. by rewrite SafeGetObj_typed, H0.
Qed.

(** C10. Whenever a typed accessor [SafeGetX] or [UnscopedSafeGetX] returns
    a non-nil error -- the retrieval failed, or the value could not be cast
    -- the typed result that comes with it is the zero value of the declared
    type. *)
Theorem C10_error_comes_with_zero_value
    (x : Object) (c : option Container) (w w' : di_world) (o : GoT x) (e : string) :
  SafeGetObj x c w = (Ret (o, Some e), w') ∨
  UnscopedSafeGetObj x c w = (Ret (o, Some e), w') →
  o = zero x.
Proof.
  destruct c as [c|]; [|by intros [H|H]].
  rewrite SafeGetObj_typed, UnscopedSafeGetObj_typed. unfold typed.
  intros [H|H].
  - destruct (di_SafeGet (ctn c) (obj_name x) w) as [[[i [e0|]]|p] w0]; try done.
    + by inversion H.
    + destruct (assert x i); by inversion H.
  - destruct (di_UnscopedSafeGet (ctn c) (obj_name x) w) as [[[i [e0|]]|p] w0]; try done.
    + by inversion H.
    + destruct (assert x i); by inversion H.
Qed.


(** C8. The free accessor [X(i)] is [C(i).GetX()], with [C] the function
    the package variable holds: it panics when the resolver panics, it
    panics when [GetX] panics on the resolved container, and otherwise it
    returns what [GetX] returns. *)
Theorem C8_free_accessor_resolves_then_gets
    (resolver : any → M di_world (option Container)) (x : Object) (i : any) (w : di_world) :
  FreeObj resolver x i w = (c ← resolver i; GetObj x c) w
  ∧ FreeObj C x i w = (c ← C i; GetObj x c) w
  ∧ AuthController resolver i = (c ← resolver i; GetAuthController c)
  ∧ Db resolver i = (c ← resolver i; GetDb c)
  ∧ UserService resolver i = (c ← resolver i; GetUserService c)
  ∧ (panics (resolver i) w → panics (FreeObj resolver x i) w)
  ∧ (∀ c w1, resolver i w = (Ret c, w1) → panics (GetObj x c) w1 →
       panics (FreeObj resolver x i) w)
  ∧ (∀ c w1 o w2, resolver i w = (Ret c, w1) → GetObj x c w1 = (Ret o, w2) →
       FreeObj resolver x i w = (Ret o, w2)).
Proof.
  repeat split.
  - intros (p & w1 & H). exists p, w1.
    unfold FreeObj, mbind, M_bind. by rewrite H.
  - intros c w1 H (p & w2 & Hp). exists p, w2.
    unfold FreeObj, mbind, M_bind. by rewrite H.
  - intros c w1 o w2 H Ho. unfold FreeObj, mbind, M_bind. by rewrite H.
Qed.

(** C3. The resolver [C] returns its argument when it is a [*Container];
    for an [*http.Request] whose context holds a [*Container] under
    [dingo.ContainerKey("dingo")] it returns that container; in every other
    case it panics. *)
Theorem C3_resolver (w : di_world) :
  (∀ c, C (ptr_Container c) w = (Ret c, w))
  ∧ (∀ r c, Value (Context r) (ContainerKey "dingo") = ptr_Container c →
       C (ptr_Request (Some r)) w = (Ret c, w))
  ∧ (∀ i, (∀ c, i ≠ ptr_Container c) →
          (∀ r c, i = ptr_Request (Some r) →
                  Value (Context r) (ContainerKey "dingo") ≠ ptr_Container c) →
          panics (C i) w).
Proof.
  split; [done|]. split.
  - intros r c H. unfold C; simpl. by rewrite H.
  - intros i Hc Hr. unfold panics, C.
    destruct i as [|c|[r|]|ty id]; simpl; eauto.
    + by destruct (Hc c).
    + destruct (Value (Context r) (ContainerKey "dingo")) as [|c| |] eqn:E; simpl; eauto.
      by destruct (Hr r c).
Qed.

End accessors.

Lemma C1_witness :
  let w' := (Di.SafeGet 1 0 "auth-controller" example_world).2 in
  di_SafeGet (DiLibrary := Di.library 1) (ctn example_root) (obj_name AuthControllerObj)
    example_world = (Ret (dyn "string" 0, None), w')
  ∧ assert (GoTypes := example_types) AuthControllerObj (dyn "string" 0) = None
  ∧ SafeGetObj (Lib := Di.library 1) (Types := example_types) AuthControllerObj
      (Some example_root) example_world
    = (Ret (None,
            Some "could get 'auth-controller' because the object could not be cast to controllers.AuthController"),
       w').
Proof.
  assert (H1 : di_SafeGet (DiLibrary := Di.library 1) (ctn example_root)
                 (obj_name AuthControllerObj) example_world
               = (Ret (dyn "string" 0, None),
                  (Di.SafeGet 1 0 "auth-controller" example_world).2))
    by (vm_compute; reflexivity).
  assert (H2 : assert (GoTypes := example_types) AuthControllerObj (dyn "string" 0) = None)
    by reflexivity.
  split; [exact H1|]. split; [exact H2|].
  exact (proj1 (C1_wrong_type_is_an_error (Lib := Di.library 1) (Types := example_types)
                  AuthControllerObj example_root (dyn "string" 0) example_world _ H1 H2)).
Defined.


Lemma C10_witness :
  let w' := (Di.SafeGet 1 0 "auth-controller" example_world).2 in
  (SafeGetObj (Lib := Di.library 1) (Types := example_types) AuthControllerObj
     (Some example_root) example_world
   = (Ret (None,
           Some "could get 'auth-controller' because the object could not be cast to controllers.AuthController"),
      w')
   ∨ UnscopedSafeGetObj (Lib := Di.library 1) (Types := example_types) AuthControllerObj
       (Some example_root) example_world
     = (Ret (None,
             Some "could get 'auth-controller' because the object could not be cast to controllers.AuthController"),
        w'))
  ∧ (None : GoT (GoTypes := example_types) AuthControllerObj)
    = zero (GoTypes := example_types) AuthControllerObj.
Proof.
  assert (H : SafeGetObj (Lib := Di.library 1) (Types := example_types) AuthControllerObj
                (Some example_root) example_world
              = (Ret (None,
                      Some "could get 'auth-controller' because the object could not be cast to controllers.AuthController"),
                 (Di.SafeGet 1 0 "auth-controller" example_world).2))
    by (vm_compute; reflexivity).
  split; [left; exact H|].
  exact (C10_error_comes_with_zero_value (Lib := Di.library 1) (Types := example_types)
           AuthControllerObj (Some example_root) example_world _ None _ (or_introl H)).
Defined.


Lemma C3_witness :
  C (Lib := Di.library 1) (ptr_Container (Some example_root)) example_world
  = (Ret (Some example_root), example_world)
  ∧ C (Lib := Di.library 1) (ptr_Request (Some example_request)) example_world
    = (Ret (Some example_root), example_world)
  ∧ panics (C (Lib := Di.library 1) (dyn "string" 3)) example_world
  ∧ panics (C (Lib := Di.library 1) (ptr_Request (Some (mk_Request [])))) example_world.
Proof.
  pose proof (C3_resolver (Lib := Di.library 1) example_world) as (H1 & H2 & H3).
  split; [exact (H1 _)|].
  split; [apply H2; reflexivity|].
  split; apply H3; try discriminate.
  intros r c Hr; inversion Hr; subst; discriminate.
Defined.

(** ** The builder *)

Section builder_facts.
Context `{Lib : DiLibrary} `{Prov : !ProviderPkg}.

(** Once a definition fails, the loop of [NewBuilder] stops: the builder is
    left as the failing [Add] left it, whatever definitions follow. *)
Lemma add_each_stops pre d post b b1 b2 e :
  add_each pre b = (b1, None) →
  di_Builder_Add [d] b1 = (b2, Some e) →
  add_each (pre ++ d :: post) b = (b2, Some e).
Proof.
  revert b. induction pre as [|d0 pre IH]; intros b Hpre Hd; simpl in *.
  - inversion Hpre; subst. by rewrite Hd.
  - destruct (di_Builder_Add [d0] b) as [b' [e'|]]; [done|]. by apply IH.
Qed.

(** An error of the loop comes from one definition, after the ones before
    it were added. *)
Lemma add_each_error defs b b2 e :
  add_each defs b = (b2, Some e) →
  ∃ pre d post b1, defs = pre ++ d :: post ∧ add_each pre b = (b1, None) ∧
                   di_Builder_Add [d] b1 = (b2, Some e).
Proof.
  revert b. induction defs as [|d0 defs IH]; intros b H; simpl in *; [done|].
  destruct (di_Builder_Add [d0] b) as [b' [e'|]] eqn:E.
  - inversion H; subst. by exists [], d0, defs, b.
  - destruct (IH _ H) as (pre & d & post & b1 & -> & Hpre & Hd).
    exists (d0 :: pre), d, post, b1. simpl. by rewrite E.
Qed.


(** C7. [NewBuilder] fails fast.  It returns a nil builder and a non-nil
    error that says which step failed and why, at the first step that fails:
    creating the [di.Builder], loading the provider, or adding a definition;
    in the last case the definitions after the failing one are never added.
    When every step succeeds it returns a builder and a nil error.  It never
    returns both a builder and an error, nor neither. *)
Theorem C7_NewBuilder_fails_fast (scopes : list string) :
  let S := if decide (length scopes = 0) then [di_App; di_Request; di_SubRequest]
           else scopes in
  (∀ b e, di_NewBuilder S = (b, Some e) →
     NewBuilder scopes = (None, Some ("could not create di.Builder: " +:+ e)))
  ∧ (∀ b p e, di_NewBuilder S = (b, None) → Provider_Load = (p, Some e) →
     NewBuilder scopes
     = (None, Some ("could not load definitions with the Provider (Provider from gotham/app/provider): "
                    +:+ e)))
  ∧ (∀ b p pre d post b1 b2 e,
       di_NewBuilder S = (b, None) → Provider_Load = (p, None) →
       getDiDefs p = pre ++ d :: post →
       add_each pre b = (b1, None) →
       di_Builder_Add [d] b1 = (b2, Some e) →
       NewBuilder scopes = (None, Some ("could not add di.Def in di.Builder: " +:+ e))
       ∧ add_each (getDiDefs p) b = (b2, Some e))
  ∧ (∀ b p b', di_NewBuilder S = (b, None) → Provider_Load = (p, None) →
       add_each (getDiDefs p) b = (b', None) →
       NewBuilder scopes = (Some (mk_builder b'), None))
  ∧ (∀ b p b2 e, di_NewBuilder S = (b, None) → Provider_Load = (p, None) →
       add_each (getDiDefs p) b = (b2, Some e) →
       ∃ pre d post b1, getDiDefs p = pre ++ d :: post ∧ add_each pre b = (b1, None) ∧
                        di_Builder_Add [d] b1 = (b2, Some e))
  ∧ ((∃ e, NewBuilder scopes = (None, Some e)) ∨ (∃ b, NewBuilder scopes = (Some b, None))).
Proof.
  intros S. unfold NewBuilder. fold S.
  split; [by intros b e ->|].
  split; [by intros b p e -> ->|].
  split.
  { intros b p pre d post b1 b2 e -> -> Hdefs Hpre Hd.
    rewrite Hdefs. by rewrite (add_each_stops _ _ _ _ _ _ _ Hpre Hd). }
  split; [by intros b p b' -> -> ->|].
  split; [intros b p b2 e _ _ H; by apply add_each_error|].
  destruct (di_NewBuilder S) as [b [e|]]; [left; by eexists|].
  destruct Provider_Load as [p [e|]]; [left; by eexists|].
  destruct (add_each (getDiDefs p) b) as [b' [e|]]; [left|right]; by eexists.
Qed.

End builder_facts.


Lemma C7_witness :
  NewBuilder (Lib := Di.library 1) (Prov := failing_provider 1) []
  = (None,
     Some "could not add di.Def in di.Builder: could not add `db`: the name is already registered")
  ∧ (add_each (Lib := Di.library 1) failing_defs
       (Di.NewBuilder ["app"; "request"; "subrequest"]).1).1
    = (Di.Add [example_def "db" "*gorm.DB" false]
         (Di.NewBuilder ["app"; "request"; "subrequest"]).1).1.
Proof.
  pose proof (C7_NewBuilder_fails_fast (Lib := Di.library 1) (Prov := failing_provider 1) [])
    as (_ & _ & H & _).
  specialize (H (Di.NewBuilder ["app"; "request"; "subrequest"]).1 failing_defs
                [example_def "db" "*gorm.DB" false]
                (example_def "db" "gorm.Dialector" false)
                [example_def "user-service" "services.IUserService" false]
                (Di.Add [example_def "db" "*gorm.DB" false]
                   (Di.NewBuilder ["app"; "request"; "subrequest"]).1).1
                (Di.Add [example_def "db" "*gorm.DB" false]
                   (Di.NewBuilder ["app"; "request"; "subrequest"]).1).1
                "could not add `db`: the name is already registered").
  destruct H as [H1 H2]; [vm_compute; reflexivity..|].
  split; [exact H1|].
  change (getDiDefs (ProviderPkg := failing_provider 1) failing_defs) with failing_defs in H2.
  rewrite H2. reflexivity.
Defined.

(** ** The scoped container: the builder *)

(** On the scoped container the loop of [NewBuilder] is the library's
    [Add] of the whole list. *)
Lemma add_each_Add depth (defs : list Di.Def) (b : Di.Builder) :
  add_each (Lib := Di.library depth) defs b = Di.Add defs b.
Proof.
  revert b. induction defs as [|d defs IH]; intros b; simpl; [done|].
  destruct (Di.add_def d b) as [b' [e|]]; [done|]. apply IH.
Qed.

(** A definition that passes the three checks is registered. *)
Lemma add_def_valid S d b :
  Di.b_scopes b = S → Di.def_scope d ∈ S → is_Some (Di.def_build d) →
  Di.b_defs b !! Di.def_name d = None →
  Di.add_def d b
  = ({| Di.b_scopes := S; Di.b_defs := <[Di.def_name d := d]> (Di.b_defs b) |}, None).
Proof.
  intros <- Hs [bf Hb] Hn. unfold Di.add_def.
  rewrite decide_True by done. by rewrite Hn, Hb.
Qed.

(** A valid set of definitions, none of them registered yet, is added
    without error; afterwards exactly their names are taken in addition. *)
Lemma Add_valid S D b :
  Di.b_scopes b = S → valid_defs S D →
  (∀ d, d ∈ D → Di.b_defs b !! Di.def_name d = None) →
  ∃ b', Di.Add D b = (b', None) ∧ Di.b_scopes b' = S ∧
        ∀ k, Di.b_defs b' !! k = None ↔ Di.b_defs b !! k = None ∧ k ∉ Di.def_name <$> D.
Proof.
  revert b. induction D as [|d D IH]; intros b HS [Hnd Hall] Hfresh; simpl.
  - exists b. split; [done|]. split; [done|]. intros k. split; [|tauto].
    intros Hb; split; [done|]. apply not_elem_of_nil.
  - rewrite fmap_cons in Hnd. apply NoDup_cons in Hnd as [Hd Hnd].
    apply Forall_cons in Hall as [[Hs Hb] Hall].
    rewrite (add_def_valid S) by (try done; apply Hfresh; left).
    destruct (IH {| Di.b_scopes := S; Di.b_defs := <[Di.def_name d := d]> (Di.b_defs b) |})
      as (b' & HA & HS' & Hk); [done|done| |].
    { intros d' Hd'; simpl. rewrite lookup_insert_ne.
      - apply Hfresh. by right.
      - intros E. apply Hd. rewrite E. by apply list_elem_of_fmap_2. }
    exists b'. split; [done|]. split; [done|].
    intros k. rewrite Hk; simpl. rewrite not_elem_of_cons.
    destruct (decide (Di.def_name d = k)) as [->|Hne].
    + rewrite lookup_insert_eq. intuition congruence.
    + rewrite lookup_insert_ne by done. intuition congruence.
Qed.

(** C5. For every valid scope list [S] (no scope twice, at least one) and
    every set of definitions with unique names, scopes of [S] and a build
    function each -- those of the provider, and those added to the builder
    afterwards -- creating the builder succeeds, adding succeeds, [Build()]
    returns a container, and the [Scope()] of that container is the first,
    widest, element of [S]. *)
Theorem C5_Build_root_has_widest_scope
    (depth : nat) (Prov : ProviderPkg (H := Di.library depth))
    (S : list string) (extra : list Di.Def) (w : Di.World) :
  valid_scopes S →
  (Provider_Load (ProviderPkg := Prov)).2 = None →
  valid_defs S
    (getDiDefs (ProviderPkg := Prov) (Provider_Load (ProviderPkg := Prov)).1 ++ extra) →
  ∃ b b' c w' s,
    NewBuilder (Lib := Di.library depth) (Prov := Prov) S = (Some b, None)
    ∧ builder_Add b extra = (b', None)
    ∧ Build b' w = (Ret (Some c), w')
    ∧ head S = Some s
    ∧ Scope (Some c) w' = (Ret s, w').
Proof.
  intros [Hne Hnd] Hload [Hnames Hall].
  destruct S as [|s S']; [done|].
  unfold NewBuilder. rewrite decide_False by done.
  simpl di_NewBuilder. unfold Di.NewBuilder.
  rewrite decide_False by done. rewrite decide_True by done.
  destruct Provider_Load as [p [e|]] eqn:Hp; [done|]. simpl in Hnames, Hall.
  rewrite fmap_app in Hnames. apply NoDup_app in Hnames as (Hn1 & Hdisj & Hn2).
  apply Forall_app in Hall as [Hall1 Hall2].
  rewrite add_each_Add.
  destruct (Add_valid (s :: S') (getDiDefs p) {| Di.b_scopes := s :: S'; Di.b_defs := ∅ |})
    as (b1 & HA1 & HS1 & Hk1); [done|done|done|].
  rewrite HA1.
  destruct (Add_valid (s :: S') extra b1) as (b2 & HA2 & HS2 & Hk2); [done|done| |].
  { intros d Hd. apply Hk1. split; [done|]. intros Hin.
    apply (Hdisj _ Hin). by apply list_elem_of_fmap_2. }
  exists (mk_builder (Lib := Di.library depth) b1), (mk_builder (Lib := Di.library depth) b2),
    {| ctn := Di.next_ctn w |}, (Di.Build b2 w).2, s.
  split; [done|]. split.
  { unfold builder_Add; simpl. by rewrite HA2. }
  split; [done|]. split; [done|].
  unfold Scope, mbind, M_bind; simpl. unfold Di.lift, Di.Scope; simpl.
  rewrite lookup_insert_eq. unfold Di.n_scope; simpl. by rewrite HS2.
Qed.

Lemma C5_witness :
  valid_scopes ["app"; "request"; "subrequest"]
  ∧ (Provider_Load (ProviderPkg := example_provider 1)).2 = None
  ∧ valid_defs ["app"; "request"; "subrequest"] (example_defs ++ [request_def])
  ∧ ∃ b b' c w' s,
      NewBuilder (Lib := Di.library 1) (Prov := example_provider 1)
        ["app"; "request"; "subrequest"] = (Some b, None)
      ∧ builder_Add b [request_def] = (b', None)
      ∧ Build b' Di.empty_world = (Ret (Some c), w')
      ∧ head ["app"; "request"; "subrequest"] = Some s
      ∧ Scope (Some c) w' = (Ret s, w').
Proof.
  assert (H1 : valid_scopes ["app"; "request"; "subrequest"]).
  { split; [discriminate|]. apply (bool_decide_unpack _). vm_compute. exact I. }
  assert (H2 : (Provider_Load (ProviderPkg := example_provider 1)).2 = None) by reflexivity.
  assert (H3 : valid_defs ["app"; "request"; "subrequest"] (example_defs ++ [request_def])).
  { split; apply (bool_decide_unpack _); vm_compute; exact I. }
  split; [exact H1|]. split; [exact H2|]. split; [exact H3|].
  exact (C5_Build_root_has_widest_scope 1 (example_provider 1)
           ["app"; "request"; "subrequest"] [request_def] Di.empty_world H1 H2 H3).
Defined.

(** ** The scoped container: retrieval and the cache *)

(** *** Retrievals only add to caches *)

Lemma set_cache_id n : Di.set_cache n (Di.n_cache n) = n.
Proof. by destruct n. Qed.

Lemma grows_refl w : grows w w.
Proof.
  split; [done|]. intros x. destruct (Di.nodes w !! x) as [n|] eqn:E; [|done].
  exists (Di.n_cache n). by rewrite set_cache_id.
Qed.

Lemma grows_trans w1 w2 w3 : grows w1 w2 → grows w2 w3 → grows w1 w3.
Proof.
  intros [Hn1 H1] [Hn2 H2]. split; [congruence|]. intros x.
  specialize (H1 x). specialize (H2 x).
  destruct (Di.nodes w1 !! x) as [n|].
  - destruct H1 as (c & E & Hc). rewrite E in H2. destruct H2 as (c' & E' & Hc').
    exists c'. split; [done|]. simpl in Hc'. by etrans.
  - by rewrite H1 in H2.
Qed.

Lemma grows_later w w' : grows w w' → later w w'.
Proof.
  intros [_ H] x n E. specialize (H x). rewrite E in H. destruct H as (c & E' & Hc).
  exists (Di.set_cache n c). by repeat split.
Qed.

Lemma grows_heap_ok w w' : grows w w' → heap_ok w → heap_ok w'.
Proof.
  intros [Hn H] [Hfresh Hpar]. split.
  - intros x n' E'. rewrite Hn. pose proof (H x) as Hx.
    destruct (Di.nodes w !! x) as [n|] eqn:E; simpl in Hx; [by eapply Hfresh|]. congruence.
  - intros x n' p E' Hp. pose proof (H x) as Hx.
    destruct (Di.nodes w !! x) as [n|] eqn:E; simpl in Hx; [|congruence].
    destruct Hx as (c & Ex & _). rewrite Ex in E'. inversion E'; subst n'. simpl in Hp.
    destruct (Hpar x n p E Hp) as (np & Ep & Hl & Hs & Hd & Hc).
    pose proof (H p) as Hp'. rewrite Ep in Hp'. destruct Hp' as (cp & Ep' & _).
    exists (Di.set_cache np cp). by repeat split.
Qed.

(** The equation of [safeGet]: its body, with the two recursive calls. *)
Lemma safeGet_eq depth lvl h name w :
  Di.safeGet depth lvl h name w =
  match Di.nodes w !! h with
  | None => ((nil_any, Di.ErrNoContainer), w)
  | Some n =>
      if Di.n_closed n then ((nil_any, Di.ErrClosed), w) else
      match Di.n_defs n !! name with
      | None => ((nil_any, Di.ErrUndefined name), w)
      | Some d =>
          match Di.scope_index (Di.n_scopes n) (Di.def_scope d) with
          | None => ((nil_any, Di.ErrUndefined name), w)
          | Some i =>
              if decide (i < Di.n_level n) then
                match Di.n_parent n, lvl with
                | Some p, S lvl' => Di.safeGet depth lvl' p name w
                | _, _ => ((nil_any, Di.ErrNoContainer), w)
                end
              else if decide (i = Di.n_level n) then
                match Di.n_cache n !! name with
                | Some v => ((v, None), w)
                | None =>
                    match depth, Di.def_build d with
                    | S depth', Some b =>
                        let '((v, e), w') :=
                          Di.run_build (Di.safeGet depth' (Di.n_level n) h) b w in
                        match e with
                        | Some msg => ((nil_any, Di.ErrBuildFailure name msg), w')
                        | None =>
                            ((v, None),
                             if Di.def_unshared d then w' else Di.cache_put h name v w')
                        end
                    | _, _ =>
                        ((nil_any, Di.ErrBuildFailure name "the build could not be run"), w)
                    end
                end
              else ((nil_any, Di.ErrScopeMismatch name), w)
          end
      end
  end.
Proof. destruct depth, lvl; reflexivity. Qed.

(** A build function changes the heap only through the retrievals it
    makes. *)
Lemma run_build_grows get b :
  (∀ name w r w', get name w = (r, w') → grows w w') →
  ∀ w r w', Di.run_build get b w = (r, w') → grows w w'.
Proof.
  intros Hget. induction b as [v e|k IH|name k IH]; intros w r w' H; simpl in H.
  - inversion H; subst. apply grows_refl.
  - eapply grows_trans; [|eapply IH, H].
    split; [done|]. intros x; simpl. destruct (Di.nodes w !! x) as [n|]; [|done].
    exists (Di.n_cache n). by rewrite set_cache_id.
  - destruct (get name w) as [r0 w0] eqn:E.
    eapply grows_trans; [eapply Hget, E|eapply IH, H].
Qed.

(** Storing an object under a name that had none is an addition. *)
Lemma cache_put_grows h name v w0 w n :
  grows w0 w → Di.nodes w0 !! h = Some n → Di.n_cache n !! name = None →
  grows w0 (Di.cache_put h name v w).
Proof.
  intros [Hn H] E Hc. unfold Di.cache_put.
  pose proof (H h) as Hh. rewrite E in Hh. destruct Hh as (c & E' & Hsub).
  rewrite E'. split; [done|]. intros x; simpl.
  destruct (decide (x = h)) as [->|Hne].
  - rewrite E, lookup_insert_eq. eexists; split; [done|]. simpl.
    by apply insert_subseteq_r.
  - rewrite lookup_insert_ne by done. apply H.
Qed.

(** A retrieval only adds objects to caches, however deep its builds
    nest. *)
Lemma safeGet_grows depth : ∀ lvl h name w r w',
  Di.safeGet depth lvl h name w = (r, w') → grows w w'.
Proof.
  induction depth as [|depth IHd]; induction lvl as [|lvl IHl]; intros h name w r w' H;
    rewrite safeGet_eq in H; repeat case_match; simplify_eq;
    try apply grows_refl; eauto using run_build_grows.
  all: try (eapply cache_put_grows; eauto using run_build_grows).
Qed.

(** *** What is cached is what [SafeGet] returns *)

Lemma cached_eq lvl h name w :
  cached lvl h name w =
  match Di.nodes w !! h with
  | None => None
  | Some n =>
      if Di.n_closed n then None else
      match Di.n_defs n !! name with
      | None => None
      | Some d =>
          match Di.scope_index (Di.n_scopes n) (Di.def_scope d) with
          | None => None
          | Some i =>
              if decide (i < Di.n_level n) then
                match Di.n_parent n, lvl with
                | Some p, S lvl' => cached lvl' p name w
                | _, _ => None
                end
              else if decide (i = Di.n_level n) then Di.n_cache n !! name
              else None
          end
      end
  end.
Proof. by destruct lvl. Qed.

(** An object found in the cache is what [SafeGet] returns, and the heap is
    left as it is. *)
Lemma cached_safeGet depth lvl : ∀ h name w v,
  cached lvl h name w = Some v → Di.safeGet depth lvl h name w = ((v, None), w).
Proof.
  induction lvl as [|lvl IH]; intros h name w v H;
    rewrite cached_eq in H; rewrite safeGet_eq;
    repeat case_match; simplify_eq; eauto.
Qed.

(** After a successful retrieval of a shared object, the object is in the
    cache. *)
Lemma safeGet_cached depth lvl : ∀ h name w v w',
  heap_ok w →
  Di.safeGet depth lvl h name w = ((v, None), w') →
  (∀ n d, Di.nodes w !! h = Some n → Di.n_defs n !! name = Some d →
          Di.def_unshared d = false) →
  cached lvl h name w' = Some v.
Proof.
  induction lvl as [|lvl IH]; intros h name w v w' Hok H Hshared.
  all: pose proof (safeGet_grows _ _ _ _ _ _ _ H) as [_ Hg].
  all: pose proof (Hg h) as Hh.
  all: rewrite safeGet_eq in H; rewrite cached_eq.
  all: destruct (Di.nodes w !! h) as [n|] eqn:En; simpl in Hh; [|done].
  all: destruct Hh as (c & Ew' & Hsub); rewrite Ew'; simpl.
  all: destruct (Di.n_closed n); [done|].
  all: destruct (Di.n_defs n !! name) as [d|] eqn:Ed; [|done].
  all: specialize (Hshared n d eq_refl Ed).
  all: destruct (Di.scope_index _ _) as [i|]; [|done].
  all: destruct (decide (i < Di.n_level n));
    [destruct (Di.n_parent n) as [p|] eqn:Ep; [|done]|].
  1: done.
  2: { eapply IH; [done|done|]. intros np dp Enp Edp.
       destruct Hok as [_ Hpar]. destruct (Hpar h n p En Ep) as (np' & ? & _ & _ & Hdefs & _).
       simplify_eq. rewrite <- Hdefs in Edp. by simplify_eq. }
  all: destruct (decide (i = Di.n_level n)); [|done].
  all: destruct (Di.n_cache n !! name) as [v0|] eqn:Ec;
    [simplify_eq; by eapply lookup_weaken|].
  all: repeat case_match; simplify_eq.
  all: match goal with
       | Hb : Di.run_build _ _ _ = (_, ?w1) |- _ =>
           pose proof (run_build_grows _ _ (safeGet_grows _ _ _) _ _ _ Hb) as [_ Hg1];
           pose proof (Hg1 h) as Hh1; rewrite En in Hh1; destruct Hh1 as (c1 & E1 & _)
       end.
  all: unfold Di.cache_put in Ew'; rewrite E1 in Ew'; simpl in Ew'.
  all: rewrite lookup_insert_eq in Ew'; simplify_eq.
  all: by rewrite lookup_insert_eq.
Qed.

(** *** Every call keeps the heap well formed *)

Lemma later_refl w : later w w.
Proof. intros x n E. exists n. by repeat split. Qed.

Lemma later_trans w1 w2 w3 : later w1 w2 → later w2 w3 → later w1 w3.
Proof.
  intros H1 H2 x n E.
  destruct (H1 x n E) as (n2 & E2 & ? & ? & ? & ? & Hc2).
  destruct (H2 x n2 E2) as (n3 & E3 & ? & ? & ? & ? & Hc3).
  exists n3. split_and!; try congruence.
  intros Hopen. destruct (Hc3 Hopen) as [Ho2 Hs3]. destruct (Hc2 Ho2) as [Ho1 Hs2].
  split; [done|by etrans].
Qed.

Lemma good_refl w : good w w.
Proof. intros H. split; [done|apply later_refl]. Qed.

Lemma good_trans w1 w2 w3 : good w1 w2 → good w2 w3 → good w1 w3.
Proof.
  intros H1 H2 Hok. destruct (H1 Hok) as [Hok2 Hl1]. destruct (H2 Hok2) as [Hok3 Hl2].
  split; [done|by eapply later_trans].
Qed.

Lemma grows_good w w' : grows w w' → good w w'.
Proof. intros Hg Hok. split; [by eapply grows_heap_ok|by apply grows_later]. Qed.

(** Changing only the pending mark or the remembered chains of a container
    keeps the heap well formed. *)
Lemma update_good w h n n' :
  Di.nodes w !! h = Some n →
  Di.n_scopes n' = Di.n_scopes n → Di.n_defs n' = Di.n_defs n →
  Di.n_level n' = Di.n_level n → Di.n_parent n' = Di.n_parent n →
  Di.n_closed n' = Di.n_closed n → Di.n_cache n' = Di.n_cache n →
  good w (Di.set_nodes w (<[h := n']> (Di.nodes w))).
Proof.
  intros E Hs Hd Hl Hp Hc Hca [Hfresh Hpar]. split; [split|].
  - intros x nx Ex; simpl in *. destruct (decide (x = h)) as [->|Hne].
    + by eapply Hfresh.
    + rewrite lookup_insert_ne in Ex by done. by eapply Hfresh.
  - intros x nx p Ex Hpx; simpl in *.
    assert (∃ nx0, Di.nodes w !! x = Some nx0 ∧ Di.n_parent nx0 = Some p ∧
                   Di.n_level nx = Di.n_level nx0 ∧ Di.n_scopes nx = Di.n_scopes nx0 ∧
                   Di.n_defs nx = Di.n_defs nx0 ∧ Di.n_closed nx = Di.n_closed nx0)
      as (nx0 & Ex0 & Hpx0 & Hl0 & Hs0 & Hd0 & Hc0).
    { destruct (decide (x = h)) as [->|Hne].
      - rewrite lookup_insert_eq in Ex. simplify_eq. exists n. split_and!; congruence.
      - rewrite lookup_insert_ne in Ex by done. exists nx. by split_and!. }
    destruct (Hpar x nx0 p Ex0 Hpx0) as (np & Ep & Hlp & Hsp & Hdp & Hcp).
    destruct (decide (p = h)) as [->|Hne].
    + rewrite lookup_insert_eq. exists n'. simplify_eq.
      split_and!; try congruence. rewrite Hc, Hc0. done.
    + rewrite lookup_insert_ne by done. exists np.
      split_and!; try congruence. rewrite Hc0. done.
  - intros x nx Ex; simpl. destruct (decide (x = h)) as [->|Hne].
    + rewrite lookup_insert_eq. exists n'. simplify_eq.
      split_and!; try done. intros Ho. split; [congruence|by rewrite Hca].
    + rewrite lookup_insert_ne by done. exists nx. by split_and!.
Qed.

(** A new container at the next free address. *)
Lemma fresh_good w n :
  (∀ p, Di.n_parent n = Some p →
        ∃ np, Di.nodes w !! p = Some np ∧ Di.n_level n = S (Di.n_level np) ∧
              Di.n_scopes n = Di.n_scopes np ∧ Di.n_defs n = Di.n_defs np ∧
              Di.n_closed np = false) →
  good w {| Di.nodes := <[Di.next_ctn w := n]> (Di.nodes w);
            Di.next_ctn := S (Di.next_ctn w); Di.next_obj := Di.next_obj w |}.
Proof.
  intros Hn [Hfresh Hpar].
  assert (Hnew : Di.nodes w !! Di.next_ctn w = None).
  { destruct (Di.nodes w !! Di.next_ctn w) as [n0|] eqn:E; [|done].
    apply Hfresh in E. lia. }
  split; [split|].
  - intros x nx Ex; simpl in *. destruct (decide (x = Di.next_ctn w)) as [->|Hne]; [lia|].
    rewrite lookup_insert_ne in Ex by done. apply Hfresh in Ex. lia.
  - intros x nx p Ex Hpx; simpl in *.
    assert (∃ np, Di.nodes w !! p = Some np ∧ Di.n_level nx = S (Di.n_level np) ∧
                  Di.n_scopes nx = Di.n_scopes np ∧ Di.n_defs nx = Di.n_defs np ∧
                  (Di.n_closed np = true → Di.n_closed nx = true))
      as (np & Ep & ?).
    { destruct (decide (x = Di.next_ctn w)) as [->|Hne].
      - rewrite lookup_insert_eq in Ex. simplify_eq.
        destruct (Hn p Hpx) as (np & ? & ? & ? & ? & Hc). exists np.
        split_and!; try done. congruence.
      - rewrite lookup_insert_ne in Ex by done. by eapply Hpar. }
    exists np. split; [|done]. rewrite lookup_insert_ne; [done|congruence].
  - intros x nx Ex; simpl. exists nx. rewrite lookup_insert_ne by congruence.
    by split_and!.
Qed.

Lemma SubContainer_good h w : good w (Di.SubContainer h w).2.
Proof.
  unfold Di.SubContainer. destruct (Di.nodes w !! h) as [n|] eqn:E; [|apply good_refl].
  destruct (Di.n_closed n) eqn:Ec; [apply good_refl|].
  case_decide; [|apply good_refl]. simpl.
  apply fresh_good. simpl. intros p [= <-]. exists n. by split_and!.
Qed.

Lemma Build_good b w : good w (Di.Build b w).2.
Proof. apply fresh_good. simpl. by intros p. Qed.

(** The equation of [under_aux]. *)
Lemma under_aux_eq w fuel h x :
  Di.under_aux w fuel h x =
  if decide (x = h) then true else
  match fuel, Di.nodes w !! x with
  | S fuel', Some n =>
      match Di.n_parent n with
      | Some p => Di.under_aux w fuel' h p
      | None => false
      end
  | _, _ => false
  end.
Proof. by destruct fuel. Qed.

(** In a well-formed heap, what is below the parent is below the child. *)
Lemma under_parent w h x n p :
  heap_ok w → Di.nodes w !! x = Some n → Di.n_parent n = Some p →
  Di.under w h p = true → Di.under w h x = true.
Proof.
  intros [_ Hpar] E Hp Hu. destruct (Hpar x n p E Hp) as (np & Ep & Hl & _).
  unfold Di.under, Di.level_of in *. rewrite Ep in Hu. rewrite E, Hl, under_aux_eq.
  case_decide; [done|]. by rewrite E, Hp.
Qed.

(** Closing everything below a container closes the children of every
    container it closes. *)
Lemma delete_under_good h w : good w (Di.delete_under h w).2.
Proof.
  intros Hok. pose proof Hok as [Hfresh Hpar]. simpl.
  assert (Hlk : ∀ x, Di.nodes (Di.delete_under h w).2 !! x
                     = (λ n, if Di.under w h x then Di.close_node n else n)
                         <$> Di.nodes w !! x).
  { intros x; simpl. rewrite map_lookup_imap. by destruct (Di.nodes w !! x). }
  simpl in Hlk. split; [split|].
  - intros x n' Ex; simpl in *. rewrite Hlk in Ex.
    destruct (Di.nodes w !! x) as [n|] eqn:E; [|done]. by eapply Hfresh.
  - intros x n' p Ex Hp; simpl in *. rewrite Hlk in Ex. rewrite Hlk.
    destruct (Di.nodes w !! x) as [n|] eqn:E; [|done]. simpl in Ex. simplify_eq.
    assert (Hpn : Di.n_parent n = Some p) by (by destruct (Di.under w h x)).
    destruct (Hpar x n p E Hpn) as (np & Ep & Hl & Hs & Hd & Hc).
    rewrite Ep; simpl. eexists; split; [done|].
    destruct (Di.under w h p) eqn:Hup.
    + rewrite (under_parent w h x n p Hok E Hpn Hup). by split_and!.
    + destruct (Di.under w h x); split_and!; try done.
  - intros x n E; simpl. rewrite Hlk, E; simpl. eexists; split; [done|].
    destruct (Di.under w h x); by split_and!.
Qed.

(** The equation of [settle]. *)
Lemma settle_eq fuel p w :
  Di.settle (S fuel) (Some p) w =
  match Di.nodes w !! p with
  | Some n =>
      if Di.n_pending n && negb (Di.n_closed n) && negb (Di.has_children w p) then
        let '(errs, w') := Di.delete_under p w in
        let '(errs', w'') := Di.settle fuel (Di.n_parent n) w' in
        (errs ++ errs', w'')
      else ([], w)
  | None => ([], w)
  end.
Proof. done. Qed.

Lemma settle_good fuel : ∀ p w, good w (Di.settle fuel p w).2.
Proof.
  induction fuel as [|fuel IH]; intros [p|] w; try apply good_refl.
  rewrite settle_eq.
  destruct (Di.nodes w !! p) as [n|]; [|apply good_refl].
  destruct (_ && _); [|apply good_refl].
  pose proof (delete_under_good p w) as H1.
  destruct (Di.delete_under p w) as [errs w1].
  pose proof (IH (Di.n_parent n) w1) as H2.
  destruct (Di.settle fuel (Di.n_parent n) w1) as [errs' w2].
  by eapply good_trans.
Qed.

Lemma DeleteWithSubContainers_good h w : good w (Di.DeleteWithSubContainers h w).2.
Proof.
  unfold Di.DeleteWithSubContainers.
  destruct (Di.nodes w !! h) as [n|]; [|apply good_refl].
  destruct (Di.n_closed n); [apply good_refl|].
  pose proof (delete_under_good h w) as H1.
  destruct (Di.delete_under h w) as [errs w1].
  pose proof (settle_good (Di.n_level n) (Di.n_parent n) w1) as H2.
  destruct (Di.settle _ _ w1) as [errs' w2]. simpl in *.
  by eapply good_trans.
Qed.

Lemma Delete_good h w : good w (Di.Delete h w).2.
Proof.
  unfold Di.Delete. destruct (Di.nodes w !! h) as [n|] eqn:E; [|apply good_refl].
  destruct (Di.n_closed n); [apply good_refl|].
  destruct (Di.has_children w h); [|apply DeleteWithSubContainers_good].
  simpl. by eapply update_good.
Qed.

Lemma SafeGet_good depth h name w : good w (Di.SafeGet depth h name w).2.
Proof.
  apply grows_good. unfold Di.SafeGet.
  destruct (Di.safeGet _ _ _ _ _) eqn:E. by eapply safeGet_grows.
Qed.

Lemma track_good h top w : good w (Di.track h top w).
Proof.
  unfold Di.track. destruct (Di.nodes w !! h) as [n|] eqn:E; [|apply good_refl].
  by eapply update_good.
Qed.

Lemma descend_good k : ∀ h w, good w (Di.descend k h w).2.
Proof.
  induction k as [|k IH]; intros h w; simpl; [apply good_refl|].
  pose proof (SubContainer_good h w) as H1.
  destruct (Di.SubContainer h w) as [[[c|] [e|]] w1]; simpl in *; try done.
  eapply good_trans; [done|apply IH].
Qed.

Lemma UnscopedSafeGet_good depth h name w : good w (Di.UnscopedSafeGet depth h name w).2.
Proof.
  unfold Di.UnscopedSafeGet.
  destruct (Di.nodes w !! h) as [n|]; [|apply SafeGet_good].
  destruct (_ ≫= _) as [i|]; [|apply SafeGet_good].
  case_decide; [|apply SafeGet_good].
  pose proof (SubContainer_good h w) as H1.
  destruct (Di.SubContainer h w) as [[[top|] [e|]] w1]; simpl in *; try done.
  pose proof (descend_good (i - S (Di.n_level n)) top (Di.track h top w1)) as H2.
  destruct (Di.descend _ top _) as [[leaf err] w2]. simpl in *.
  assert (good w w2) as H3.
  { eapply good_trans; [done|]. eapply good_trans; [apply track_good|done]. }
  destruct leaf as [leaf|], err as [e|]; simpl; try done.
  eapply good_trans; [done|apply SafeGet_good].
Qed.

Lemma delete_chains_good chains : ∀ w, good w (Di.delete_chains chains w).2.
Proof.
  induction chains as [|c chains IH]; intros w; cbn [Di.delete_chains];
    [apply good_refl|].
  pose proof (delete_under_good c w) as H1.
  destruct (Di.delete_under c w) as [errs w1].
  pose proof (IH w1) as H2.
  destruct (Di.delete_chains chains w1) as [errs' w2].
  by eapply good_trans.
Qed.

Lemma Clean_good h w : good w (Di.Clean h w).2.
Proof.
  unfold Di.Clean. destruct (Di.nodes w !! h) as [n|] eqn:E; [|apply good_refl].
  pose proof (delete_chains_good (Di.n_unscoped n)
                (Di.set_nodes w (<[h:=Di.set_unscoped n []]> (Di.nodes w)))) as H1.
  destruct (Di.delete_chains _ _) as [errs w1].
  pose proof (settle_good (S (Di.n_level n)) (Some h) w1) as H2.
  destruct (Di.settle _ _ w1) as [errs' w2].
  eapply good_trans; [|eapply good_trans; [apply H1|apply H2]].
  by eapply update_good.
Qed.

Section programs.
Context `{Types : GoTypes}.

Lemma run_call_good depth k w : good w (run_call depth k w).
Proof.
  destruct k as [b|[c|]|[c|] name|[c|] name|[c|] name|[c|] name
                |x [c|]|x [c|]|x [c|]|x [c|]|[c|]|[c|]|[c|]];
    try apply good_refl;
    unfold run_call, Build, SubContainer, SafeGet, Get, UnscopedSafeGet, UnscopedGet,
      GetObj, UnscopedGetObj, SafeGetObj, UnscopedSafeGetObj,
      Clean, Delete, DeleteWithSubContainers, field_ctn, mbind, M_bind, mret, M_ret, panic;
    cbn [di_Builder_Build di_SubContainer di_SafeGet di_Get di_UnscopedSafeGet
         di_UnscopedGet di_Clean di_Delete di_DeleteWithSubContainers Di.library
         b_builder];
    unfold Di.or_panic, Di.lift, mbind, M_bind, mret, M_ret, panic.
  - pose proof (Build_good b w) as H. by destruct (Di.Build b w).
  - pose proof (SubContainer_good (ctn c) w) as H.
    by destruct (Di.SubContainer (ctn c) w) as [[[s|] [e|]] w'].
  - pose proof (SafeGet_good depth (ctn c) name w) as H.
    by destruct (Di.SafeGet depth (ctn c) name w).
  - pose proof (SafeGet_good depth (ctn c) name w) as H.
    by destruct (Di.SafeGet depth (ctn c) name w) as [[v [e|]] w'].
  - pose proof (UnscopedSafeGet_good depth (ctn c) name w) as H.
    by destruct (Di.UnscopedSafeGet depth (ctn c) name w).
  - pose proof (UnscopedSafeGet_good depth (ctn c) name w) as H.
    by destruct (Di.UnscopedSafeGet depth (ctn c) name w) as [[v [e|]] w'].
  - pose proof (SafeGet_good depth (ctn c) (obj_name x) w) as H.
    destruct (Di.SafeGet depth (ctn c) (obj_name x) w) as [[v [e|]] w']; [done|].
    by destruct (type_assert x v) as [o []].
  - pose proof (SafeGet_good depth (ctn c) (obj_name x) w) as H.
    destruct (Di.SafeGet depth (ctn c) (obj_name x) w) as [[v [e|]] w']; [done|].
    by destruct (type_assert x v) as [o []].
  - pose proof (UnscopedSafeGet_good depth (ctn c) (obj_name x) w) as H.
    destruct (Di.UnscopedSafeGet depth (ctn c) (obj_name x) w) as [[v [e|]] w']; [done|].
    by destruct (type_assert x v) as [o []].
  - pose proof (UnscopedSafeGet_good depth (ctn c) (obj_name x) w) as H.
    destruct (Di.UnscopedSafeGet depth (ctn c) (obj_name x) w) as [[v [e|]] w']; [done|].
    by destruct (type_assert x v) as [o []].
  - pose proof (Clean_good (ctn c) w) as H. by destruct (Di.Clean (ctn c) w).
  - pose proof (Delete_good (ctn c) w) as H. by destruct (Di.Delete (ctn c) w).
  - pose proof (DeleteWithSubContainers_good (ctn c) w) as H.
    by destruct (Di.DeleteWithSubContainers (ctn c) w).
Qed.

Lemma run_calls_good depth ks : ∀ w, good w (run_calls depth ks w).
Proof.
  induction ks as [|k ks IH]; intros w; [apply good_refl|].
  eapply good_trans; [apply (run_call_good depth k)|apply IH].
Qed.

End programs.

(** *** A cached object stays cached while its container is open *)

Lemma heap_ok_empty : heap_ok Di.empty_world.
Proof. split; intros x n; simpl; by rewrite lookup_empty. Qed.

(** An object in the cache stays available to a container for as long as
    that container is open. *)
Lemma cached_later lvl : ∀ h name w w' v,
  later w w' → heap_ok w' →
  cached lvl h name w = Some v → Di.IsClosed h w' = false →
  cached lvl h name w' = Some v.
Proof.
  induction lvl as [|lvl IH]; intros h name w w' v Hl Hok Hc Hopen.
  all: rewrite cached_eq in Hc; rewrite cached_eq.
  all: unfold Di.IsClosed in Hopen.
  all: destruct (Di.nodes w !! h) as [n|] eqn:En; [|done].
  all: destruct (Hl h n En) as (n' & En' & Hs & Hd & Hlv & Hp & Hcl).
  all: rewrite En' in Hopen |- *. all: rewrite Hopen.
  all: destruct (Hcl Hopen) as [Ho Hsub]. all: rewrite Ho in Hc.
  all: rewrite Hs, Hd, Hlv, Hp.
  all: destruct (Di.n_defs n !! name) as [d|]; [|done].
  all: destruct (Di.scope_index _ _) as [i|]; [|done].
  all: destruct (decide (i < Di.n_level n));
    [destruct (Di.n_parent n) as [p|] eqn:Ep; [|done]|].
  1: done.
  2: { eapply IH; [done|done|done|]. unfold Di.IsClosed.
       destruct Hok as [_ Hpar].
       destruct (Hpar h n' p En' Hp) as (np & Enp & _ & _ & _ & Hcp).
       rewrite Enp. destruct (Di.n_closed np); [|done]. rewrite Hcp in Hopen; done. }
  all: destruct (decide (i = Di.n_level n)); [|done].
  all: by eapply lookup_weaken.
Qed.

(** Once the container is closed, a retrieval fails with the Closed
    error. *)
Lemma SafeGet_on_closed depth h name w n :
  Di.nodes w !! h = Some n → Di.n_closed n = true →
  Di.SafeGet depth h name w = ((nil_any, Di.ErrClosed), w).
Proof.
  intros E Hc. unfold Di.SafeGet. rewrite safeGet_eq. by rewrite E, Hc.
Qed.

(** C4 (as amended). For any container and any name whose Definition is
    shared (not [unshared]): once a [SafeGet] of that name from the container
    has succeeded, every later [SafeGet] of it from that container --
    whatever calls were made on the library's containers before and in
    between -- returns the identical instance, and leaves the heap as it is,
    for as long as the container has not been closed. *)
Theorem C4_shared_object_is_cached `{Types : GoTypes}
    (depth : nat) (history future : list call) (c : Container) (name : string)
    (d : Di.Def) (v : any) (w1 : Di.World) :
  let w0 := run_calls depth history Di.empty_world in
  let w2 := run_calls depth future w1 in
  SafeGet (Lib := Di.library depth) (Some c) name w0 = (Ret (v, None), w1) →
  definition_of w0 c name = Some d →
  Di.def_unshared d = false →
  IsClosed (Lib := Di.library depth) (Some c) w2 = (Ret false, w2) →
  SafeGet (Lib := Di.library depth) (Some c) name w2 = (Ret (v, None), w2).
Proof.
  intros w0 w2 Hget Hdef Hshared Hopen.
  assert (Hok0 : heap_ok w0) by (apply (run_calls_good depth history), heap_ok_empty).
  unfold SafeGet, IsClosed, field_ctn, mbind, M_bind, mret, M_ret in *. simpl in *.
  unfold Di.lift in *.
  destruct (Di.SafeGet depth (ctn c) name w0) as [r w1'] eqn:E0.
  assert (r = (v, None) ∧ w1' = w1) as [-> ->] by (by inversion Hget). clear Hget.
  assert (Hc : Di.IsClosed (ctn c) w2 = false) by (by inversion Hopen). clear Hopen.
  unfold Di.SafeGet in E0.
  unfold definition_of in Hdef.
  destruct (Di.nodes w0 !! ctn c) as [n|] eqn:En; [|done]. simpl in Hdef.
  pose proof (safeGet_grows _ _ _ _ _ _ _ E0) as Hg.
  assert (Hok1 : heap_ok w1) by (by eapply grows_heap_ok).
  destruct (run_calls_good depth future w1 Hok1) as [Hok2 Hl]. fold w2 in Hok2, Hl.
  assert (Hcached : cached (Di.level_of w0 (ctn c)) (ctn c) name w1 = Some v).
  { apply (safeGet_cached depth _ _ _ w0 _ _ Hok0 E0). intros n0 d0 ? ?. by simplify_eq. }
  pose proof (cached_later _ _ _ _ _ _ Hl Hok2 Hcached Hc) as Hcached2.
  assert (Hlv : Di.level_of w2 (ctn c) = Di.level_of w0 (ctn c)).
  { pose proof (grows_later _ _ Hg) as Hl0.
    destruct (later_trans _ _ _ Hl0 Hl (ctn c) n En) as (n2 & En2 & _ & _ & Hlv & _).
    unfold Di.level_of. by rewrite En, En2. }
  unfold Di.SafeGet. rewrite Hlv.
  by rewrite (cached_safeGet depth _ _ _ _ _ Hcached2).
Qed.

(** C4, as stated, fails for an unshared Definition: "auth-service" is built
    anew by each [SafeGet], so the second retrieval from the open root
    container returns another instance than the first. *)
Lemma C4_counterexample : ¬ SafeGet_always_cached (Types := example_types) 1.
Proof.
  intros H.
  specialize (H [call_Build example_builder] [] example_root "auth-service"
                (dyn "services.IAuthService" 0)
                (Di.SafeGet 1 0 "auth-service" example_world).2).
  cbv zeta in H.
  assert (H1 : SafeGet (Lib := Di.library 1) (Some example_root) "auth-service"
                 (run_calls (Types := example_types) 1 [call_Build example_builder]
                    Di.empty_world)
               = (Ret (dyn "services.IAuthService" 0, None),
                  (Di.SafeGet 1 0 "auth-service" example_world).2))
    by (vm_compute; reflexivity).
  specialize (H H1).
  assert (H2 : IsClosed (Lib := Di.library 1) (Some example_root)
                 (run_calls (Types := example_types) 1 []
                    (Di.SafeGet 1 0 "auth-service" example_world).2)
               = (Ret false,
                  run_calls (Types := example_types) 1 []
                    (Di.SafeGet 1 0 "auth-service" example_world).2))
    by (vm_compute; reflexivity).
  specialize (H H2).
  assert (H3 : (SafeGet (Lib := Di.library 1) (Some example_root) "auth-service"
                 (run_calls (Types := example_types) 1 []
                    (Di.SafeGet 1 0 "auth-service" example_world).2)).1
               = Ret (dyn "services.IAuthService" 1, None))
    by (vm_compute; reflexivity).
  rewrite H in H3. discriminate H3.
Qed.

Lemma C4_witness :
  let w0 := run_calls (Types := example_types) 2 example_history Di.empty_world in
  let w1 := (Di.SafeGet 2 1 "db" w0).2 in
  let w2 := run_calls (Types := example_types) 2 example_future w1 in
  SafeGet (Lib := Di.library 2) (Some example_child) "db" w0
  = (Ret (dyn "*gorm.DB" 0, None), w1)
  ∧ definition_of w0 example_child "db" = Some (example_def "db" "*gorm.DB" false)
  ∧ Di.def_unshared (example_def "db" "*gorm.DB" false) = false
  ∧ IsClosed (Lib := Di.library 2) (Some example_child) w2 = (Ret false, w2)
  ∧ SafeGet (Lib := Di.library 2) (Some example_child) "db" w2
    = (Ret (dyn "*gorm.DB" 0, None), w2).
Proof.
  cbv zeta.
  set (w0 := run_calls (Types := example_types) 2 example_history Di.empty_world).
  set (w2 := run_calls (Types := example_types) 2 example_future (Di.SafeGet 2 1 "db" w0).2).
  assert (H1 : SafeGet (Lib := Di.library 2) (Some example_child) "db" w0
               = (Ret (dyn "*gorm.DB" 0, None), (Di.SafeGet 2 1 "db" w0).2))
    by (vm_compute; reflexivity).
  assert (H2 : definition_of w0 example_child "db"
               = Some (example_def "db" "*gorm.DB" false))
    by (vm_compute; reflexivity).
  assert (H3 : Di.def_unshared (example_def "db" "*gorm.DB" false) = false) by reflexivity.
  assert (H4 : IsClosed (Lib := Di.library 2) (Some example_child) w2 = (Ret false, w2))
    by (vm_compute; reflexivity).
  split; [exact H1|]. split; [exact H2|]. split; [exact H3|]. split; [exact H4|].
  exact (C4_shared_object_is_cached (Types := example_types) 2 example_history
           example_future example_child "db" _ _ _ H1 H2 H3 H4).
Defined.

(** ** The scoped container on the scenarios of the specification

    Section 8 of the specification, run on the container: one build per
    object and the same instance for both retrievals; a narrower object is
    refused by [SafeGet] and built in a synthesized chain by
    [UnscopedSafeGet], and again after [Clean]; [DeleteWithSubContainers]
    closes the whole tree; [Delete] waits for the children. *)

Example scenario_one_build_each :
  let '(r1, w1) := Di.SafeGet 2 1 "req-user" scenario_world in
  let '(r2, w2) := Di.SafeGet 2 1 "req-user" w1 in
  r1 = (dyn "User" 1, None) ∧ r2 = r1 ∧ Di.next_obj w2 = 2 ∧ w2 = w1
  ∧ Di.SafeGet 2 0 "db" w2 = ((dyn "*gorm.DB" 0, None), w2).
Proof. vm_compute. by split_and!. Qed.

Example scenario_scope_mismatch_and_unscoped :
  (Di.SafeGet 2 0 "req-user" scenario_world).1 = (nil_any, Di.ErrScopeMismatch "req-user")
  ∧ let '(r1, w1) := Di.UnscopedSafeGet 2 0 "req-user" scenario_world in
    let '(_, w2) := Di.Clean 0 w1 in
    let '(r2, w3) := Di.UnscopedSafeGet 2 0 "req-user" w2 in
    r1 = (dyn "User" 1, None) ∧ r2 = (dyn "User" 2, None)
    ∧ Di.IsClosed 3 w1 = false ∧ Di.IsClosed 3 w2 = true ∧ Di.IsClosed 1 w2 = false.
Proof. vm_compute. by split_and!. Qed.

Example scenario_DeleteWithSubContainers :
  let w := (Di.DeleteWithSubContainers 0 scenario_world).2 in
  Di.IsClosed 0 w = true ∧ Di.IsClosed 1 w = true ∧ Di.IsClosed 2 w = true
  ∧ (Di.SafeGet 2 1 "db" w).1 = (nil_any, Di.ErrClosed)
  ∧ (Di.SubContainer 0 w).1 = (None, Di.ErrClosed).
Proof. vm_compute. by split_and!. Qed.

Example scenario_Delete_waits_for_children :
  let w1 := (Di.Delete 1 scenario_world).2 in
  let w2 := (Di.Delete 2 w1).2 in
  Di.IsClosed 1 w1 = false ∧ Di.IsClosed 2 w1 = false
  ∧ Di.IsClosed 2 w2 = true ∧ Di.IsClosed 1 w2 = true ∧ Di.IsClosed 0 w2 = false.
Proof. vm_compute. by split_and!. Qed.

(** ** More on the package [dic] *)

Section wrapper.
Context `{Lib : DiLibrary} `{Prov : !ProviderPkg} `{Types : GoTypes}.

Local Ltac run := unfold mbind, M_bind, mret, M_ret, panic; simpl.

(** X1. A typed accessor succeeds exactly when the untyped retrieval of its
    object succeeds with a value of the declared type, and then it returns
    that value, cast; the panicking accessors return exactly when the safe
    ones succeed. *)
Theorem typed_accessor_succeeds_iff
    (x : Object) (c : Container) (w w' : di_world) (o : GoT x) :
  (SafeGetObj x (Some c) w = (Ret (o, None), w') ↔
     ∃ i, di_SafeGet (ctn c) (obj_name x) w = (Ret (i, None), w') ∧ assert x i = Some o)
  ∧ (UnscopedSafeGetObj x (Some c) w = (Ret (o, None), w') ↔
     ∃ i, di_UnscopedSafeGet (ctn c) (obj_name x) w = (Ret (i, None), w')
          ∧ assert x i = Some o)
  ∧ (GetObj x (Some c) w = (Ret o, w') ↔ SafeGetObj x (Some c) w = (Ret (o, None), w'))
  ∧ (UnscopedGetObj x (Some c) w = (Ret o, w') ↔
     UnscopedSafeGetObj x (Some c) w = (Ret (o, None), w')).
Proof.
  rewrite GetObj_must, UnscopedGetObj_must, SafeGetObj_typed, UnscopedSafeGetObj_typed.
  unfold typed, must.
  split; [|split; [|split]].
  - destruct (di_SafeGet (ctn c) (obj_name x) w) as [[[i [e|]]|p] w0].
    + split; [done|]. by intros (i' & H & _).
    + destruct (assert x i) as [o'|] eqn:E.
      * split.
        -- intros H. inversion H; subst. by exists i.
        -- intros (i' & H & Ha). inversion H; subst. congruence.
      * split; [done|]. intros (i' & H & Ha). inversion H; subst. congruence.
    + split; [done|]. by intros (i' & H & _).
  - destruct (di_UnscopedSafeGet (ctn c) (obj_name x) w) as [[[i [e|]]|p] w0].
    + split; [done|]. by intros (i' & H & _).
    + destruct (assert x i) as [o'|] eqn:E.
      * split.
        -- intros H. inversion H; subst. by exists i.
        -- intros (i' & H & Ha). inversion H; subst. congruence.
      * split; [done|]. intros (i' & H & Ha). inversion H; subst. congruence.
    + split; [done|]. by intros (i' & H & _).
  - destruct (di_SafeGet (ctn c) (obj_name x) w) as [[[i [e|]]|p] w0]; [done| |done].
    destruct (assert x i); [|done]. split; intros H; inversion H; by subst.
  - destruct (di_UnscopedSafeGet (ctn c) (obj_name x) w) as [[[i [e|]]|p] w0]; [done| |done].
    destruct (assert x i); [|done]. split; intros H; inversion H; by subst.
Qed.

Lemma SafeGetObj_SafeGet x c w : SafeGetObj x c w = typed x (SafeGet c (obj_name x) w).
Proof. destruct c as [c|]; [apply SafeGetObj_typed|done]. Qed.

Lemma UnscopedSafeGetObj_UnscopedSafeGet x c w :
  UnscopedSafeGetObj x c w = typed x (UnscopedSafeGet c (obj_name x) w).
Proof. destruct c as [c|]; [apply UnscopedSafeGetObj_typed|done]. Qed.

Lemma typed_heap x r : (typed x r).2 = r.2.
Proof. destruct r as [[[i [e|]]|p] w']; simpl; try done. by destruct (assert x i). Qed.

Lemma typed_panic x r p : (typed x r).1 = Panic p ↔ r.1 = Panic p.
Proof.
  destruct r as [[[i [e|]]|p'] w']; simpl; [|destruct (assert x i)|];
    split; simpl; intros H; congruence.
Qed.

Lemma must_heap {W A} (r : outcome (A * error) * W) : (must r).2 = r.2.
Proof. by destruct r as [[[o [e|]]|p] w']. Qed.

(** X2. The typed accessors add nothing to what the container does: on any
    receiver, the nil pointer included, [SafeGetX] and [UnscopedSafeGetX]
    are [SafeGet] and [UnscopedSafeGet] for the name of the object followed
    by the cast, they and the panicking accessors leave the heap of the
    library as the untyped call leaves it, and the safe ones panic exactly
    when the untyped call panics, with the same value. *)
Theorem typed_accessor_follows_untyped (x : Object) (c : option Container) (w : di_world) :
  SafeGetObj x c w = typed x (SafeGet c (obj_name x) w)
  ∧ UnscopedSafeGetObj x c w = typed x (UnscopedSafeGet c (obj_name x) w)
  ∧ (SafeGetObj x c w).2 = (SafeGet c (obj_name x) w).2
  ∧ (GetObj x c w).2 = (SafeGet c (obj_name x) w).2
  ∧ (UnscopedSafeGetObj x c w).2 = (UnscopedSafeGet c (obj_name x) w).2
  ∧ (UnscopedGetObj x c w).2 = (UnscopedSafeGet c (obj_name x) w).2
  ∧ (∀ p, (SafeGetObj x c w).1 = Panic p ↔ (SafeGet c (obj_name x) w).1 = Panic p)
  ∧ (∀ p, (UnscopedSafeGetObj x c w).1 = Panic p
          ↔ (UnscopedSafeGet c (obj_name x) w).1 = Panic p).
Proof.
  rewrite GetObj_must, UnscopedGetObj_must, !must_heap.
  rewrite SafeGetObj_SafeGet, UnscopedSafeGetObj_UnscopedSafeGet, !typed_heap.
  split; [done|]. split; [done|]. split; [done|]. split; [done|].
  split; [done|]. split; [done|]. split; intros p; apply typed_panic.
Qed.

(** X3. No method checks its receiver: on the nil [*Container] each of
    them panics with a nil dereference before the library is called, so
    that the heap is untouched.  The resolver does not check either: it
    hands on a nil [*Container], given directly or found in the context of a
    request, and the free accessor then panics with the nil dereference,
    not with a message of the resolver. *)
Theorem nil_Container_is_dereferenced (x : Object) (name : string) (w : di_world) :
  Scope None w = nil_dereference w
  ∧ Parent None w = nil_dereference w
  ∧ SubContainer None w = nil_dereference w
  ∧ SafeGet None name w = nil_dereference w
  ∧ Get None name w = nil_dereference w
  ∧ UnscopedSafeGet None name w = nil_dereference w
  ∧ UnscopedGet None name w = nil_dereference w
  ∧ Clean None w = nil_dereference w
  ∧ DeleteWithSubContainers None w = nil_dereference w
  ∧ Delete None w = nil_dereference w
  ∧ IsClosed None w = nil_dereference w
  ∧ SafeGetObj x None w = nil_dereference w
  ∧ GetObj x None w = nil_dereference w
  ∧ UnscopedSafeGetObj x None w = nil_dereference w
  ∧ UnscopedGetObj x None w = nil_dereference w
  ∧ C (ptr_Container None) w = (Ret None, w)
  ∧ FreeObj C x (ptr_Container None) w = nil_dereference w
  ∧ (∀ r, Value (Context r) (ContainerKey "dingo") = ptr_Container None →
       C (ptr_Request (Some r)) w = (Ret None, w)
       ∧ FreeObj C x (ptr_Request (Some r)) w = nil_dereference w).
Proof.
  unfold nil_dereference.
  repeat (split; [reflexivity|]).
  intros r Hr. unfold FreeObj, C. run. by rewrite Hr.
Qed.

Lemma NewBuilder_shape scopes :
  (∃ e, NewBuilder scopes = (None, Some e)) ∨ (∃ b, NewBuilder scopes = (Some b, None)).
Proof.
  unfold NewBuilder.
  destruct (di_NewBuilder _) as [b [e|]]; [left; by eexists|].
  destruct Provider_Load as [p [e|]]; [left; by eexists|].
  destruct (add_each (getDiDefs p) b) as [b' [e|]]; [left|right]; by eexists.
Qed.

(** X4. [NewContainer] is [NewBuilder] followed by [Build].  An error of
    [NewBuilder] is returned as it is, with the nil container, and the
    library is not asked to build: the heap is untouched.  Otherwise the
    result is a container, never nil, around what [Build] of the library
    returned, with the nil error.  [NewContainer] panics only when the
    [Build] of the library does, and without scopes it does what it does
    with the three default scopes. *)
Theorem NewContainer_builds_or_reports (scopes : list string) (w : di_world) :
  (∀ e, (NewBuilder scopes).2 = Some e → NewContainer scopes w = (Ret (None, Some e), w))
  ∧ (∀ b, NewBuilder scopes = (Some b, None) →
       NewContainer scopes w = (c ← Build b; mret (c, None)) w)
  ∧ (∀ c e w', NewContainer scopes w = (Ret (c, e), w') →
       (c = None ∧ w' = w ∧ (NewBuilder scopes).2 = e ∧ e ≠ None)
       ∨ (∃ b h, NewBuilder scopes = (Some b, None) ∧ e = None ∧ c = Some {| ctn := h |}
                 ∧ di_Builder_Build (b_builder b) w = (Ret h, w')))
  ∧ (∀ p w', NewContainer scopes w = (Panic p, w') →
       ∃ b, NewBuilder scopes = (Some b, None)
            ∧ di_Builder_Build (b_builder b) w = (Panic p, w'))
  ∧ NewContainer [] w = NewContainer [di_App; di_Request; di_SubRequest] w.
Proof.
  unfold NewContainer.
  destruct (NewBuilder_shape scopes) as [[e0 ->]|[b0 ->]]; simpl.
  - split; [by intros e [= ->]|]. split; [done|]. split.
    + intros c e w' H. run. inversion H; subst. left. by repeat split.
    + split; [done|]. done.
  - split; [done|]. split; [by intros b [= ->]|]. unfold Build. run.
    destruct (di_Builder_Build (b_builder b0) w) as [[h|p] w0] eqn:E.
    + split.
      * intros c e w' H. inversion H; subst. right. by exists b0, h.
      * split; [done|]. done.
    + split; [done|]. split; [|done].
      intros p' w' H. inversion H; subst. by exists b0.
Qed.

(** X5. What [SubContainer] and [Parent] return: [SubContainer] returns the
    nil container with the error of the library, whatever container the
    library returned with it, or the container of the library, wrapped, with
    the nil error -- never a container together with an error, never
    neither; [Parent] returns nil exactly when the container of the library
    has no parent, and the parent of the library, wrapped, otherwise. *)
Theorem SubContainer_and_Parent_shape (c : Container) (w : di_world) :
  (∀ r e w', SubContainer (Some c) w = (Ret (r, e), w') →
     ∃ sub e0, di_SubContainer (ctn c) w = (Ret (sub, e0), w') ∧ e = e0
       ∧ match e0 with Some _ => r = None | None => r = Some {| ctn := sub |} end)
  ∧ (∀ p w', SubContainer (Some c) w = (Panic p, w') ↔
             di_SubContainer (ctn c) w = (Panic p, w'))
  ∧ (∀ w', Parent (Some c) w = (Ret None, w') ↔ di_Parent (ctn c) w = (Ret None, w'))
  ∧ (∀ h w', Parent (Some c) w = (Ret (Some {| ctn := h |}), w') ↔
             di_Parent (ctn c) w = (Ret (Some h), w')).
Proof.
  unfold SubContainer, Parent. run.
  split; [|split; [|split]].
  - intros r e w' H.
    destruct (di_SubContainer (ctn c) w) as [[[sub [e0|]]|p] w0]; inversion H; subst;
      [by exists sub, (Some e0)|by exists sub, None].
  - intros p w'.
    destruct (di_SubContainer (ctn c) w) as [[[sub [e0|]]|p0] w0]; simpl;
      split; intros H; by inversion H.
  - intros w'. destruct (di_Parent (ctn c) w) as [[[h|]|p] w0]; simpl;
      split; intros H; by inversion H.
  - intros h w'. destruct (di_Parent (ctn c) w) as [[[h0|]|p] w0]; simpl;
      split; intros H; by inversion H.
Qed.

(** X6. When the resolver panics it says why: given neither a
    [*Container] nor an [*http.Request] it panics with "could not get the
    container with dic.C()"; given a request whose context holds no
    [*Container] under the key, with "could not get the container from the
    given *http.Request in dic.C()"; given the nil request, with a nil
    dereference.  It never touches the heap of the library, and the free
    accessor panics with the same value. *)
Theorem C_panics_say_why (x : Object) (i : any) (w : di_world) :
  (C i w).2 = w
  ∧ (∀ p, (C i w).1 = Panic p →
       FreeObj C x i w = (Panic p, w)
       ∧ ((p = panic_string "could not get the container with dic.C()"
           ∧ (∀ c, i ≠ ptr_Container c) ∧ (∀ r, i ≠ ptr_Request r))
          ∨ (p = panic_string
                   "could not get the container from the given *http.Request in dic.C()"
             ∧ ∃ r, i = ptr_Request (Some r)
                    ∧ ∀ c, Value (Context r) (ContainerKey "dingo") ≠ ptr_Container c)
          ∨ (p = panic_nil_dereference ∧ i = ptr_Request None)))
  ∧ ((∀ c, i ≠ ptr_Container c) → (∀ r, i ≠ ptr_Request r) →
       C i w = (Panic (panic_string "could not get the container with dic.C()"), w))
  ∧ (∀ r, i = ptr_Request (Some r) →
       (∀ c, Value (Context r) (ContainerKey "dingo") ≠ ptr_Container c) →
       C i w = (Panic (panic_string
                  "could not get the container from the given *http.Request in dic.C()"), w)).
Proof.
  unfold FreeObj, C. run.
  destruct i as [|c|[r|]|ty id]; simpl.
  - split; [done|]. split; [|split; [done|by intros r [=]]].
    intros p [= <-]. split; [done|]. left. by repeat split.
  - split; [done|]. split; [done|]. split; [|by intros r [=]].
    intros Hc. by destruct (Hc c).
  - destruct (Value (Context r) (ContainerKey "dingo")) as [|c| |] eqn:E; simpl.
    + split; [done|]. split; [|split; [intros _ Hr; by destruct (Hr (Some r))|done]].
      intros p [= <-]. split; [done|]. right; left. split; [done|]. exists r.
      split; [done|]. intros c. by rewrite E.
    + split; [done|]. split; [done|].
      split; [intros _ Hr; by destruct (Hr (Some r))|].
      intros r' [= <-] Hc. rewrite E in Hc. by destruct (Hc c).
    + split; [done|]. split; [|split; [intros _ Hr; by destruct (Hr (Some r))|done]].
      intros p [= <-]. split; [done|]. right; left. split; [done|]. exists r.
      split; [done|]. intros c. by rewrite E.
    + split; [done|]. split; [|split; [intros _ Hr; by destruct (Hr (Some r))|done]].
      intros p [= <-]. split; [done|]. right; left. split; [done|]. exists r.
      split; [done|]. intros c. by rewrite E.
  - split; [done|]. split; [|split; [intros _ Hr; by destruct (Hr None)|by intros r [=]]].
    intros p [= <-]. split; [done|]. right; right. done.
  - split; [done|]. split; [|split; [done|by intros r [=]]].
    intros p [= <-]. split; [done|]. left. by repeat split.
Qed.

(** X7. The resolver reads the innermost value the context of the request
    holds under [dingo.ContainerKey("dingo")]: a container attached last
    hides the ones attached before it, and values under other keys -- the
    same text with another key type included -- are passed over. *)
Theorem C_reads_innermost_binding
    (ctx : list (ctxkey * any)) (k : ctxkey) (v : any) (c : option Container)
    (w : di_world) :
  C (ptr_Request (Some (mk_Request ((ContainerKey "dingo", ptr_Container c) :: ctx)))) w
    = (Ret c, w)
  ∧ (k ≠ ContainerKey "dingo" →
     C (ptr_Request (Some (mk_Request ((k, v) :: ctx)))) w
     = C (ptr_Request (Some (mk_Request ctx))) w)
  ∧ C (ptr_Request (Some (mk_Request (({| key_type := "string"; key_value := "dingo" |},
                                       ptr_Container c) :: ctx)))) w
    = C (ptr_Request (Some (mk_Request ctx))) w.
Proof.
  unfold C. simpl. split; [done|]. split; [|done].
  intros Hk. by rewrite decide_False.
Qed.

End wrapper.

(** X8. The nine objects are registered under nine names: the accessors of
    two objects never ask the container for the same definition, and the
    error of a failed cast tells which accessor it comes from. *)
Theorem objects_have_their_own_name (x y : Object) :
  (obj_name x = obj_name y ↔ x = y)
  ∧ (cast_message x = cast_message y ↔ x = y)
  ∧ NoDup (obj_name <$> all_objects)
  ∧ x ∈ all_objects.
Proof.
  split; [|split; [|split]].
  - split; [|by intros ->]. destruct x, y; simpl; congruence.
  - split; [|by intros ->]. destruct x, y; vm_compute; congruence.
  - apply (bool_decide_unpack _). vm_compute. reflexivity.
  - apply (bool_decide_unpack _). destruct x; vm_compute; reflexivity.
Qed.

(** ** The package [helpers] *)

Section helpers_facts.
Import helpers.
Import Stdlib.Strings.Ascii.
Local Open Scope Z_scope.

(** *** Go's [int] *)

Lemma wrap_int z : is_int z → wrap z = z.
Proof.
  unfold is_int, int_min, int_max, wrap. intros H.
  rewrite Z.mod_small by lia. lia.
Qed.

Lemma wrap_is_int z : is_int (wrap z).
Proof.
  unfold is_int, int_min, int_max, wrap.
  pose proof (Z.mod_pos_bound (z + 2 ^ 63) (2 ^ 64)). lia.
Qed.

(** [wrap] keeps the value modulo 2^64. *)
Lemma wrap_mod z : wrap z `mod` 2 ^ 64 = z `mod` 2 ^ 64.
Proof.
  unfold wrap. rewrite Zminus_mod_idemp_l. f_equal. lia.
Qed.

Lemma wrap_eq a b : a `mod` 2 ^ 64 = b `mod` 2 ^ 64 → wrap a = wrap b.
Proof.
  intros H. unfold wrap. f_equal.
  rewrite <- (Zplus_mod_idemp_l a), <- (Zplus_mod_idemp_l b). by rewrite H.
Qed.

Lemma wrap_add_l a b : wrap (wrap a + b) = wrap (a + b).
Proof.
  apply wrap_eq. rewrite <- Zplus_mod_idemp_l, wrap_mod. by rewrite Zplus_mod_idemp_l.
Qed.

Lemma wrap_sub_l a b : wrap (wrap a - b) = wrap (a - b).
Proof.
  apply wrap_eq. rewrite <- Zminus_mod_idemp_l, wrap_mod. by rewrite Zminus_mod_idemp_l.
Qed.

Lemma wrap_mul_l a b : wrap (wrap a * b) = wrap (a * b).
Proof.
  apply wrap_eq. rewrite <- Zmult_mod_idemp_l, wrap_mod. by rewrite Zmult_mod_idemp_l.
Qed.

(** *** Paging *)

Lemma PrevPageCal_eq page :
  is_int (page - 1) →
  PrevPageCal page = if decide (page > 1) then page - 1 else page.
Proof. intros H. unfold PrevPageCal, int_sub. by rewrite wrap_int. Qed.

(** X9. For a page among the pages, from 1 to [totalPage], the next page
    and the previous page are among the pages too; the next page is the page
    itself on the last page only, the previous page on the first page only;
    and away from these ends the two functions undo each other. *)
Theorem paging_in_range (page totalPage : Z) :
  1 ≤ page ≤ totalPage → totalPage ≤ int_max →
  page ≤ NextPageCal page totalPage ≤ totalPage
  ∧ (NextPageCal page totalPage = page ↔ page = totalPage)
  ∧ 1 ≤ PrevPageCal page ≤ page
  ∧ (PrevPageCal page = page ↔ page = 1)
  ∧ (page < totalPage → PrevPageCal (NextPageCal page totalPage) = page)
  ∧ (1 < page → NextPageCal (PrevPageCal page) totalPage = page).
Proof.
  intros Hp Ht.
  assert (Hi : ∀ z, 0 ≤ z ≤ totalPage → is_int z).
  { intros z Hz. unfold is_int, int_min, int_max in *. lia. }
  assert (HN : ∀ p, 0 ≤ p ≤ totalPage →
            NextPageCal p totalPage = if decide (p = totalPage) then p else p + 1).
  { intros p Hp'. unfold NextPageCal, int_add. case_decide; [done|]. apply wrap_int, Hi. lia. }
  assert (HP : ∀ p, 1 ≤ p ≤ totalPage →
            PrevPageCal p = if decide (p > 1) then p - 1 else p).
  { intros p Hp'. apply PrevPageCal_eq, Hi. lia. }
  rewrite !(HN page), !(HP page) by lia.
  split; [case_decide; lia|]. split; [case_decide; lia|].
  split; [case_decide; lia|]. split; [case_decide; lia|]. split.
  - intros H. rewrite decide_False by lia.
    rewrite HP by lia. rewrite decide_True by lia. lia.
  - intros H. rewrite decide_True by lia.
    rewrite HN by lia. rewrite decide_False by lia. lia.
Qed.

Lemma paging_in_range_witness :
  (1 ≤ 3 ≤ 7 ∧ 7 ≤ int_max)
  ∧ NextPageCal 3 7 = 4 ∧ PrevPageCal 3 = 2 ∧ PrevPageCal (NextPageCal 3 7) = 3.
Proof.
  assert (H1 : 1 ≤ 3 ≤ 7) by lia.
  assert (H2 : 7 ≤ int_max) by (vm_compute; discriminate).
  pose proof (paging_in_range 3 7 H1 H2) as (_ & _ & _ & _ & H & _).
  split; [done|]. split; [reflexivity|]. split; [reflexivity|]. apply H. lia.
Defined.

(** X10. Outside the pages nothing is checked: past the last page
    [NextPageCal] goes on counting, on the greatest [int] it wraps around to
    the least, and [PrevPageCal] leaves a page below 1 where it is. *)
Theorem paging_out_of_range (page totalPage : Z) :
  is_int page → is_int totalPage →
  (totalPage < page < int_max → NextPageCal page totalPage = page + 1)
  ∧ (page = int_max → totalPage ≠ int_max → NextPageCal page totalPage = int_min)
  ∧ (page ≤ 1 → PrevPageCal page = page).
Proof.
  intros Hp Ht. unfold NextPageCal, PrevPageCal, int_add.
  split; [|split].
  - intros H. rewrite decide_False by lia. apply wrap_int.
    unfold is_int, int_min, int_max in *. lia.
  - intros -> H. rewrite decide_False by done. reflexivity.
  - intros H. by rewrite decide_False by lia.
Qed.

Lemma paging_out_of_range_witness :
  (is_int 9 ∧ is_int 7) ∧ NextPageCal 9 7 = 10 ∧ PrevPageCal 0 = 0
  ∧ NextPageCal int_max 7 = int_min.
Proof.
  assert (H1 : is_int 9) by (vm_compute; split; discriminate).
  assert (H2 : is_int 7) by (vm_compute; split; discriminate).
  pose proof (paging_out_of_range 9 7 H1 H2) as (H & _ & _).
  split; [done|]. split; [apply H; vm_compute; split; reflexivity|]. by split.
Defined.

(** X11. The offsets of the pages tile the rows: page 1 starts at row 0 and
    each page starts [limit] rows after the page before it, even where the
    arithmetic wraps around; where it does not, the offset of a page is
    [(page - 1) * limit]. *)
Theorem OffsetCal_pages_tile (page limit : Z) :
  OffsetCal 1 limit = 0
  ∧ OffsetCal (int_add page 1) limit = int_add (OffsetCal page limit) limit
  ∧ (1 ≤ page → 0 ≤ limit → (page - 1) * limit ≤ int_max →
     OffsetCal page limit = (page - 1) * limit).
Proof.
  unfold OffsetCal, int_add, int_sub, int_mul. split; [|split].
  - reflexivity.
  - rewrite !wrap_sub_l, !wrap_mul_l, wrap_add_l. f_equal. lia.
  - intros Hp Hl Hb. rewrite wrap_mul_l. apply wrap_int.
    unfold is_int, int_min, int_max in *. nia.
Qed.

(** *** Percentages *)

(** X12. For a share of a positive denominator, [PercentCalculate] is the
    percentage rounded down: from 0 to 100, the greatest [r] with
    [r * denominator] at most [100 * share], and 100 for the whole only. *)
Theorem PercentCalculate_bounds (share denominator : Z) :
  0 ≤ share ≤ denominator → 0 < denominator → 100 * share ≤ int_max →
  let r := PercentCalculate share denominator in
  0 ≤ r ≤ 100
  ∧ r * denominator ≤ 100 * share < (r + 1) * denominator
  ∧ (r = 100 ↔ share = denominator).
Proof.
  intros Hs Hd Hb r. subst r. unfold PercentCalculate, int_quot, int_mul.
  rewrite decide_False by lia.
  assert (Hi : ∀ z, 0 ≤ z ≤ 100 * share → is_int z).
  { intros z Hz. unfold is_int, int_min, int_max in *. lia. }
  rewrite (wrap_int (100 * share)) by (apply Hi; lia).
  rewrite Z.quot_div_nonneg by lia.
  pose proof (Z.div_mod (100 * share) denominator ltac:(lia)) as Hdm.
  pose proof (Z.mod_pos_bound (100 * share) denominator Hd) as Hm.
  set (q := (100 * share) `div` denominator) in *.
  assert (Hq : 0 ≤ q ≤ 100) by nia.
  rewrite (wrap_int q) by (apply Hi; nia).
  split; [done|]. split; [nia|]. split; nia.
Qed.

Lemma PercentCalculate_bounds_witness :
  (0 ≤ 1 ≤ 3 ∧ 0 < 3 ∧ 100 * 1 ≤ int_max)
  ∧ PercentCalculate 1 3 = 33
  ∧ PercentCalculate 1 3 * 3 ≤ 100 * 1 < (PercentCalculate 1 3 + 1) * 3.
Proof.
  assert (H1 : 0 ≤ 1 ≤ 3) by lia.
  assert (H2 : 0 < 3) by lia.
  assert (H3 : 100 * 1 ≤ int_max) by (vm_compute; discriminate).
  pose proof (PercentCalculate_bounds 1 3 H1 H2 H3) as (_ & H & _).
  split; [done|]. split; [reflexivity|exact H].
Defined.

(** X13. A zero denominator counts as one: no division by zero is
    attempted, and the result is a hundred times the share, wrapped
    around. *)
Theorem PercentCalculate_zero_denominator (share : Z) :
  PercentCalculate share 0 = PercentCalculate share 1
  ∧ PercentCalculate share 0 = wrap (100 * share).
Proof.
  unfold PercentCalculate, int_quot, int_mul. simpl.
  rewrite Z.quot_1_r. split; [done|]. apply wrap_int, wrap_is_int.
Qed.

(** *** Duplicates *)

(** The slice built so far is only ever appended to. *)
Lemma RemoveDuplicateValues_loop_acc s : ∀ keys acc,
  RemoveDuplicateValues_loop s keys acc = acc ++ RemoveDuplicateValues_loop s keys [].
Proof.
  induction s as [|e s IH]; intros keys acc; simpl; [by rewrite app_nil_r|].
  destruct (keys !! e); [apply IH|].
  rewrite (IH _ (acc ++ [e])), (IH _ [e]). by rewrite <- app_assoc.
Qed.

Lemma RemoveDuplicateValues_loop_cons e s keys :
  RemoveDuplicateValues_loop (e :: s) keys [] =
  match keys !! e with
  | Some _ => RemoveDuplicateValues_loop s keys []
  | None => e :: RemoveDuplicateValues_loop s (<[e := true]> keys) []
  end.
Proof.
  simpl. destruct (keys !! e); [done|]. by rewrite RemoveDuplicateValues_loop_acc.
Qed.

(** What the loop lets through: the entries that are not yet a key. *)
Lemma elem_of_RemoveDuplicateValues_loop s : ∀ keys x,
  x ∈ RemoveDuplicateValues_loop s keys [] ↔ x ∈ s ∧ keys !! x = None.
Proof.
  induction s as [|e s IH]; intros keys x.
  - simpl. rewrite elem_of_nil. tauto.
  - rewrite RemoveDuplicateValues_loop_cons, elem_of_cons.
    destruct (keys !! e) eqn:E.
    + rewrite IH. split; [tauto|]. intros [[->|?] ?]; [congruence|tauto].
    + rewrite elem_of_cons, IH. destruct (decide (x = e)) as [->|Hne].
      * tauto.
      * rewrite lookup_insert_ne by done. tauto.
Qed.



Lemma filter_ext_in {A} (P Q : A → Prop) `{!∀ x, Decision (P x), !∀ x, Decision (Q x)}
    (l : list A) :
  (∀ x, x ∈ l → P x ↔ Q x) → filter P l = filter Q l.
Proof.
  induction l as [|a l IH]; intros Hext; [done|].
  assert (filter P l = filter Q l) as IH'.
  { apply IH. intros x Hx. apply Hext. by right. }
  pose proof (Hext a ltac:(left)) as Ha.
  destruct (decide (P a)) as [HP|HP].
  - rewrite !filter_cons_True by tauto. by f_equal.
  - rewrite !filter_cons_False by tauto. done.
Qed.

(** With more keys at the start, the loop lets through what it let
    through before, less the new keys. *)
Lemma RemoveDuplicateValues_loop_filter s : ∀ keys0 keys,
  (∀ x, keys !! x = None → keys0 !! x = None) →
  RemoveDuplicateValues_loop s keys []
  = filter (λ x, keys !! x = None) (RemoveDuplicateValues_loop s keys0 []).
Proof.
  induction s as [|e s IH]; intros keys0 keys Hsub; [done|].
  rewrite !RemoveDuplicateValues_loop_cons.
  destruct (keys !! e) eqn:E, (keys0 !! e) eqn:E0.
  - by apply IH.
  - rewrite filter_cons_False by congruence. apply IH.
    intros x Hx. destruct (decide (x = e)) as [->|Hne]; [congruence|].
    rewrite lookup_insert_ne by done. by apply Hsub.
  - apply Hsub in E. congruence.
  - rewrite filter_cons_True by done. f_equal.
    rewrite (IH (<[e:=true]> keys0) (<[e:=true]> keys)).
    + apply filter_ext_in. intros x Hx.
      apply elem_of_RemoveDuplicateValues_loop in Hx as [_ Hx].
      destruct (decide (x = e)) as [->|Hne]; [by rewrite lookup_insert_eq in Hx|].
      by rewrite lookup_insert_ne.
    + intros x. destruct (decide (x = e)) as [->|Hne].
      * by rewrite !lookup_insert_eq.
      * rewrite !lookup_insert_ne by done. apply Hsub.
Qed.

(** The keys after a run over [s]. *)
Lemma RemoveDuplicateValues_loop_app s1 : ∀ s2 keys,
  ∃ keys', (∀ x, keys' !! x = None ↔ keys !! x = None ∧ x ∉ s1) ∧
    RemoveDuplicateValues_loop (s1 ++ s2) keys []
    = RemoveDuplicateValues_loop s1 keys [] ++ RemoveDuplicateValues_loop s2 keys' [].
Proof.
  induction s1 as [|e s1 IH]; intros s2 keys.
  - exists keys. split; [|done]. intros x. rewrite elem_of_nil. tauto.
  - simpl app. rewrite !RemoveDuplicateValues_loop_cons. destruct (keys !! e) eqn:E.
    + destruct (IH s2 keys) as (keys' & Hk & ->). exists keys'. split; [|done].
      intros x. rewrite Hk, not_elem_of_cons. split; [|tauto].
      intros [Hx ?]. split; [done|]. split; [|done]. intros ->. congruence.
    + destruct (IH s2 (<[e:=true]> keys)) as (keys' & Hk & ->). exists keys'.
      split; [|by rewrite (RemoveDuplicateValues_loop_acc s1 _ [e])]. intros x. rewrite Hk, not_elem_of_cons.
      destruct (decide (x = e)) as [->|Hne].
      * rewrite lookup_insert_eq. split; [by intros [? ?]|tauto].
      * rewrite lookup_insert_ne by done. tauto.
Qed.



(** X15. Over two slices one after the other, [RemoveDuplicateValues]
    gives what it gives for the first, followed by what it gives for the
    second less the values of the first. *)
Theorem RemoveDuplicateValues_app (s1 s2 : list N) :
  RemoveDuplicateValues (s1 ++ s2)
  = RemoveDuplicateValues s1 ++ filter (λ x, x ∉ s1) (RemoveDuplicateValues s2).
Proof.
  unfold RemoveDuplicateValues.
  destruct (RemoveDuplicateValues_loop_app s1 s2 ∅) as (keys' & Hk & ->). f_equal.
  rewrite (RemoveDuplicateValues_loop_filter s2 ∅ keys') by done.
  apply list_filter_iff. intros x. rewrite Hk, lookup_empty. tauto.
Qed.

(** *** Membership *)

Section membership.
Context {V : Type} (DeepEqual : V → V → bool).

Lemma InArray_loop_true val s :
  InArray_loop DeepEqual val s = true ↔ ∃ e, e ∈ s ∧ DeepEqual val e = true.
Proof.
  induction s as [|e s IH]; simpl.
  - split; [done|]. intros (e & He & _). by apply elem_of_nil in He.
  - destruct (DeepEqual val e) eqn:E.
    + split; [|done]. intros _. exists e. split; [left|done].
    + rewrite IH. split.
      * intros (e' & He & H). exists e'. split; [by right|done].
      * intros (e' & He & H). apply elem_of_cons in He as [->|He]; [congruence|eauto].
Qed.

(** X16. [InArray] answers true exactly for a slice with an element that
    [reflect.DeepEqual] finds equal to [val]; for a value of any other kind,
    an array with such an element included, it answers false; it panics
    exactly for the nil interface. *)
Theorem InArray_true_iff (val : V) (array : option (reflected V)) :
  (InArray DeepEqual val array = Ret true ↔
     ∃ a, array = Some a ∧ kind a = reflect.Slice
          ∧ ∃ e, e ∈ elems a ∧ DeepEqual val e = true)
  ∧ ((∃ p, InArray DeepEqual val array = Panic p) ↔ array = None)
  ∧ (∀ a, array = Some a → kind a ≠ reflect.Slice →
       InArray DeepEqual val array = Ret false).
Proof.
  unfold InArray, TypeOf_Kind. destruct array as [a|]; simpl.
  - split; [|split].
    + destruct (kind a) eqn:K; simpl;
        try (split; [done|]; intros (a' & Ha & Hk & _); inversion Ha; subst; congruence).
      split.
      * intros H. injection H as H'. exists a. split; [done|]. split; [done|].
        by apply InArray_loop_true.
      * intros (a' & Ha & _ & H). inversion Ha; subst.
        f_equal. by apply InArray_loop_true.
    + split; [|done]. intros [p H]. by destruct (kind a).
    + intros a' Ha Hk. inversion Ha; subst. by destruct (kind a').
  - split; [|split].
    + split; [done|]. by intros (a & Ha & _).
    + split; [done|]. intros _. by eexists.
    + by intros a Ha.
Qed.

Lemma InArrayDuplicate_loop_count val s : ∀ number,
  0 ≤ number → number + Z.of_nat (length s) ≤ int_max →
  InArrayDuplicate_loop DeepEqual val s number
  = number + Z.of_nat (length (filter (λ e, DeepEqual val e = true) s)).
Proof.
  induction s as [|e s IH]; intros number H0 Hb; simpl; [lia|].
  simpl in Hb.
  pose proof (length_filter (λ e, DeepEqual val e = true) s) as Hf.
  destruct (DeepEqual val e) eqn:E.
  - rewrite filter_cons_True by done. simpl.
    unfold int_add. rewrite wrap_int by (unfold is_int, int_min, int_max in *; lia).
    rewrite IH by lia. lia.
  - rewrite filter_cons_False by congruence. apply IH; lia.
Qed.

(** X17. For a slice, [InArrayDuplicate] is the number of elements that
    [reflect.DeepEqual] finds equal to [val]: between zero and the length of
    the slice, and positive exactly when [InArray] answers true. *)
Theorem InArrayDuplicate_counts (val : V) (a : reflected V) :
  kind a = reflect.Slice → Z.of_nat (length (elems a)) ≤ int_max →
  ∃ number,
    InArrayDuplicate DeepEqual val (Some a) = Ret number
    ∧ number = Z.of_nat (length (filter (λ e, DeepEqual val e = true) (elems a)))
    ∧ 0 ≤ number ≤ Z.of_nat (length (elems a))
    ∧ (0 < number ↔ InArray DeepEqual val (Some a) = Ret true)
    ∧ (number = 0 ↔ InArray DeepEqual val (Some a) = Ret false).
Proof.
  intros Hk Hb. unfold InArrayDuplicate, InArray. simpl. rewrite Hk.
  rewrite InArrayDuplicate_loop_count by lia.
  set (f := filter (λ e, DeepEqual val e = true) (elems a)).
  pose proof (length_filter (λ e, DeepEqual val e = true) (elems a)) as Hf. fold f in Hf.
  assert (Hin : InArray_loop DeepEqual val (elems a) = true ↔ f ≠ []).
  { rewrite InArray_loop_true. split.
    - intros (e & He & H) Hnil.
      assert (e ∈ f) as Hef by (by apply list_elem_of_filter).
      rewrite Hnil in Hef. by apply elem_of_nil in Hef.
    - intros Hne. destruct f as [|e f'] eqn:Ef; [done|].
      assert (e ∈ f) as Hef by (rewrite Ef; left).
      apply list_elem_of_filter in Hef as [? ?]. eauto. }
  eexists. split; [reflexivity|]. split; [lia|]. split; [lia|]. split.
  - split.
    + intros H. f_equal. apply Hin. intros Hnil. rewrite Hnil in H. simpl in H. lia.
    + intros H. injection H as H'. apply Hin in H'. destruct f; [done|]. simpl. lia.
  - split.
    + intros H. f_equal. apply not_true_is_false. intros E.
      apply Hin in E. destruct f; [done|]. simpl in H. lia.
    + intros H. injection H as H'.
      destruct f as [|e f'] eqn:Ef; [simpl; lia|].
      assert (InArray_loop DeepEqual val (elems a) = true) by (apply Hin; done).
      congruence.
Qed.

(** X18. Like [InArray], [InArrayDuplicate] counts nothing in a value that
    is not a slice and panics for the nil interface, and only for it. *)
Theorem InArrayDuplicate_not_a_slice (val : V) (array : option (reflected V)) :
  (∀ a, array = Some a → kind a ≠ reflect.Slice →
     InArrayDuplicate DeepEqual val array = Ret 0)
  ∧ ((∃ p, InArrayDuplicate DeepEqual val array = Panic p) ↔ array = None)
  ∧ (InArrayDuplicate DeepEqual val array = Panic panic_nil_dereference
     ↔ InArray DeepEqual val array = Panic panic_nil_dereference).
Proof.
  unfold InArrayDuplicate, InArray, TypeOf_Kind. destruct array as [a|]; simpl.
  - split; [|split].
    + intros a' Ha Hk. inversion Ha; subst. by destruct (kind a').
    + split; [|done]. intros [p H]. by destruct (kind a).
    + by destruct (kind a).
  - split; [by intros a Ha|]. split; [|done]. split; [done|]. intros _. by eexists.
Qed.

End membership.

Lemma InArrayDuplicate_counts_witness :
  (kind example_slice = reflect.Slice ∧ Z.of_nat (length (elems example_slice)) ≤ int_max)
  ∧ InArrayDuplicate Z.eqb 3 (Some example_slice) = Ret 2
  ∧ InArray Z.eqb 3 (Some example_slice) = Ret true.
Proof.
  assert (H1 : kind example_slice = reflect.Slice) by reflexivity.
  assert (H2 : Z.of_nat (length (elems example_slice)) ≤ int_max)
    by (vm_compute; discriminate).
  destruct (InArrayDuplicate_counts Z.eqb 3 example_slice H1 H2)
    as (number & Hn & _ & _ & Hpos & _).
  split; [done|]. split; [reflexivity|].
  apply Hpos. vm_compute in Hn. inversion Hn. reflexivity.
Defined.

(** *** Struct tags *)

Lemma before_comma_no_comma v : ¬ has_comma (before_comma v).
Proof.
  unfold has_comma. induction v as [|c v IH]; simpl.
  - apply not_elem_of_nil.
  - case_decide as Hc; simpl; [apply not_elem_of_nil|].
    apply not_elem_of_cons. split; [congruence|done].
Qed.

Lemma before_comma_id v : ¬ has_comma v → before_comma v = v.
Proof.
  unfold has_comma. induction v as [|c v IH]; simpl; [done|].
  intros H. apply not_elem_of_cons in H as [Hc Hv].
  rewrite decide_False by congruence. f_equal. by apply IH.
Qed.

Section tags.
Context {V : Type} (Tag_Get : string → string → string).

Lemma TagControl_loop_first tag key fields d :
  (∃ pre f post, fields = pre ++ f :: post
     ∧ Forall (λ f', before_comma (Tag_Get f' key) ≠ tag) pre
     ∧ before_comma (Tag_Get f key) = tag
     ∧ TagControl_loop Tag_Get tag key fields d = Tag_Get f key)
  ∨ (Forall (λ f', before_comma (Tag_Get f' key) ≠ tag) fields
     ∧ TagControl_loop Tag_Get tag key fields d = d).
Proof.
  induction fields as [|f fields IH]; simpl; [by right|].
  case_decide as Hf.
  - left. exists [], f, fields. by repeat split.
  - destruct IH as [(pre & f0 & post & -> & Hpre & Hf0 & ->)|[Hall ->]].
    + left. exists (f :: pre), f0, post. split; [done|]. split; [by constructor|]. done.
    + right. split; [by constructor|done].
Qed.

(** X19. For a struct and a tag that is not empty, [TagControl] returns the
    whole tag value that the first field naming [tag] gives [key] -- the name
    of a field being the text of that value before its first comma -- and
    the default when no field names it. *)
Theorem TagControl_first_match (tag key : string) (rt : reflected V) (defaultV : string) :
  tag ≠ "" → kind rt = reflect.Struct →
  ∃ d, TagControl Tag_Get tag key (Some rt) defaultV = Ret d
    ∧ ((∃ pre f post, field_tags rt = pre ++ f :: post
          ∧ Forall (λ f', before_comma (Tag_Get f' key) ≠ tag) pre
          ∧ d = Tag_Get f key ∧ before_comma d = tag)
       ∨ (Forall (λ f', before_comma (Tag_Get f' key) ≠ tag) (field_tags rt)
          ∧ d = defaultV)).
Proof.
  intros Htag Hk. unfold TagControl, TypeOf_Kind.
  rewrite decide_False by done. rewrite Hk. rewrite decide_False by (by intros H; apply H).
  eexists. split; [reflexivity|].
  destruct (TagControl_loop_first tag key (field_tags rt) defaultV)
    as [(pre & f & post & E & Hpre & Hf & ->)|[Hall ->]].
  - left. exists pre, f, post. by repeat split.
  - by right.
Qed.

(** X20. Where [TagControl] does not look at fields: with the empty tag it
    returns the default whatever [s] is, the nil interface included; with
    another tag it panics with a nil dereference for the nil interface and
    with "bad type" for a value that is not a struct; and a tag with a comma
    in it names no field, so that a struct gives the default. *)
Theorem TagControl_edges (tag key : string) (s : option (reflected V)) (defaultV : string) :
  (tag = "" → TagControl Tag_Get tag key s defaultV = Ret defaultV)
  ∧ (tag ≠ "" → s = None →
       TagControl Tag_Get tag key s defaultV = Panic panic_nil_dereference)
  ∧ (∀ rt, tag ≠ "" → s = Some rt → kind rt ≠ reflect.Struct →
       TagControl Tag_Get tag key s defaultV = Panic (panic_string "bad type"))
  ∧ (∀ rt, has_comma tag → s = Some rt → kind rt = reflect.Struct →
       TagControl Tag_Get tag key s defaultV = Ret defaultV).
Proof.
  unfold TagControl, TypeOf_Kind. split; [|split; [|split]].
  - intros ->. done.
  - intros Htag ->. by rewrite decide_False.
  - intros rt Htag -> Hk. rewrite decide_False by done. by rewrite decide_True.
  - intros rt Hc -> Hk.
    assert (tag ≠ "") as Htag by (intros ->; by apply elem_of_nil in Hc).
    rewrite decide_False by done. rewrite Hk. rewrite decide_False by (by intros H; apply H).
    f_equal.
    destruct (TagControl_loop_first tag key (field_tags rt) defaultV)
      as [(pre & f & post & E & Hpre & Hf & _)|[_ H]]; [|done].
    exfalso. rewrite <- Hf in Hc. by apply before_comma_no_comma in Hc.
Qed.

End tags.

Lemma TagControl_first_match_witness :
  ("name" ≠ "" ∧ kind example_struct = reflect.Struct)
  ∧ TagControl example_Tag_Get "name" "json" (Some example_struct) "none"
    = Ret "name,omitempty".
Proof.
  assert (H1 : "name" ≠ "") by discriminate.
  assert (H2 : kind example_struct = reflect.Struct) by reflexivity.
  destruct (TagControl_first_match example_Tag_Get "name" "json" example_struct "none"
              H1 H2) as (d & Hd & _).
  split; [done|]. rewrite Hd. vm_compute in Hd. congruence.
Defined.

(** *** Random strings *)


Section random_facts.
Context {G : Type} (Intn : Z → G → Z * G).
(** [rand.Intn(n)] returns a number in [[0, n)] for a positive [n]. *)
Hypothesis Intn_range : ∀ n g, 0 < n → 0 ≤ (Intn n g).1 < n.



End random_facts.


(** *** Months *)

Lemma Months_calendar : Months = list_to_map calendar.
Proof. reflexivity. Qed.

Lemma NoDup_calendar_keys : NoDup calendar.*1.
Proof. apply (bool_decide_unpack _). vm_compute. reflexivity. Qed.

Lemma map_to_list_Months : map_to_list Months ≡ₚ calendar.
Proof. rewrite Months_calendar. apply map_to_list_to_map, NoDup_calendar_keys. Qed.

(** What the loop finds, whatever the order, when no two entries share an
    id. *)
Lemma GetMonthNameWithId_loop_spec order id :
  NoDup ((MouthID ∘ snd) <$> order) →
  (∀ k m, (k, m) ∈ order → MouthID m = id → GetMonthNameWithId_loop order id = FullName m)
  ∧ ((∀ k m, (k, m) ∈ order → MouthID m ≠ id) → GetMonthNameWithId_loop order id = "").
Proof.
  induction order as [|[k0 m0] order IH]; simpl; intros Hnd.
  - split; [|done]. intros k m H. by apply elem_of_nil in H.
  - apply NoDup_cons in Hnd as [Hm0 Hnd]. destruct (IH Hnd) as [IH1 IH2]. split.
    + intros k m Hin Hid. apply elem_of_cons in Hin as [Heq|Hin].
      * inversion Heq; subst. by rewrite decide_True.
      * case_decide as Hd; [|by eapply IH1].
        exfalso. apply Hm0. apply list_elem_of_fmap. exists (k, m). split; [|done].
        simpl. congruence.
    + intros Hall. rewrite decide_False by (eapply Hall; left).
      apply IH2. intros k m Hin. eapply Hall. by right.
Qed.

Lemma NoDup_calendar_ids : NoDup ((MouthID ∘ snd) <$> calendar).
Proof. apply (bool_decide_unpack _). vm_compute. reflexivity. Qed.

Lemma GetMonthNameWithId_loop_perm order1 order2 id :
  order1 ≡ₚ order2 → NoDup ((MouthID ∘ snd) <$> order1) →
  GetMonthNameWithId_loop order1 id = GetMonthNameWithId_loop order2 id.
Proof.
  intros Hp Hnd1.
  assert (Hnd2 : NoDup ((MouthID ∘ snd) <$> order2)) by (by rewrite <- Hp).
  destruct (GetMonthNameWithId_loop_spec order1 id Hnd1) as [H1 H1'].
  destruct (GetMonthNameWithId_loop_spec order2 id Hnd2) as [H2 H2'].
  destruct (decide (Exists (λ e, MouthID e.2 = id) order1)) as [Hex|Hnex].
  - apply Exists_exists in Hex as ([k m] & Hin & Hid). simpl in Hid.
    rewrite (H1 k m Hin Hid). symmetry. apply (H2 k m); [by rewrite <- Hp|done].
  - rewrite H1', H2'; [done| |].
    + intros k m Hin Hid. apply Hnex, Exists_exists. exists (k, m).
      split; [by rewrite Hp|done].
    + intros k m Hin Hid. apply Hnex, Exists_exists. by exists (k, m).
Qed.

(** X22. [GetMonthNameWithId] does not depend on the order in which Go
    ranges over the map [Months]: in whatever order the twelve entries come,
    the loop returns what it returns in the order of the calendar. *)
Theorem GetMonthNameWithId_any_order (order : list (string * MonthlyInformation)) (id : Z) :
  order ≡ₚ map_to_list Months →
  GetMonthNameWithId_loop order id = GetMonthNameWithId id
  ∧ GetMonthNameWithId_loop order id = GetMonthNameWithId_loop calendar id.
Proof.
  intros Hp. unfold GetMonthNameWithId.
  assert (Hc : order ≡ₚ calendar) by (by rewrite Hp, map_to_list_Months).
  assert (Hnd : NoDup ((MouthID ∘ snd) <$> order)).
  { rewrite Hc. apply NoDup_calendar_ids. }
  split.
  - by apply GetMonthNameWithId_loop_perm.
  - by apply GetMonthNameWithId_loop_perm.
Qed.

Lemma GetMonthNameWithId_any_order_witness :
  reverse (map_to_list Months) ≡ₚ map_to_list Months
  ∧ GetMonthNameWithId_loop (reverse (map_to_list Months)) 3 = "March".
Proof.
  assert (H : reverse (map_to_list Months) ≡ₚ map_to_list Months)
    by apply reverse_Permutation.
  split; [exact H|].
  rewrite (proj2 (GetMonthNameWithId_any_order _ 3 H)). reflexivity.
Defined.

Lemma GetMonthNameWithId_calendar id :
  GetMonthNameWithId id = GetMonthNameWithId_loop calendar id.
Proof.
  unfold GetMonthNameWithId. apply GetMonthNameWithId_loop_perm.
  - apply map_to_list_Months.
  - rewrite map_to_list_Months. apply NoDup_calendar_ids.
Qed.

Lemma Months_lookup m info :
  Months !! m = Some info ↔ (m, info) ∈ calendar.
Proof.
  rewrite Months_calendar. symmetry. apply elem_of_list_to_map, NoDup_calendar_keys.
Qed.

(** X23. The three functions on months agree with each other and with the
    calendar: a month of [Months] has its own name as full name and an id
    from 1 to 12, from which [GetMonthNameWithId] gives the month back;
    an id from 1 to 12 gives a month that has that id; any other id gives
    the empty string, and a name that is no month gives the empty full name
    and the id 0. *)
Theorem months_round_trip :
  (∀ m, m ∈ month_names →
     GetMonthFullName m = m ∧ 1 ≤ GetMonthId m ≤ 12
     ∧ GetMonthNameWithId (GetMonthId m) = m)
  ∧ (∀ id, 1 ≤ id ≤ 12 →
     GetMonthNameWithId id ∈ month_names ∧ GetMonthId (GetMonthNameWithId id) = id)
  ∧ (∀ id, ¬ 1 ≤ id ≤ 12 → GetMonthNameWithId id = "")
  ∧ (∀ m, m ∉ month_names → GetMonthFullName m = "" ∧ GetMonthId m = 0)
  ∧ (∀ m1 m2, m1 ∈ month_names → m2 ∈ month_names →
     GetMonthId m1 = GetMonthId m2 → m1 = m2).
Proof.
  assert (Hall : Forall (λ m, GetMonthFullName m = m ∧ 1 ≤ GetMonthId m ≤ 12
                              ∧ GetMonthNameWithId_loop calendar (GetMonthId m) = m)
                   month_names).
  { repeat constructor; vm_compute; congruence. }
  rewrite Forall_forall in Hall.
  split; [|split; [|split; [|split]]].
  - intros m Hm. rewrite GetMonthNameWithId_calendar. by apply Hall.
  - intros id Hid. rewrite GetMonthNameWithId_calendar.
    assert (id = 1 ∨ id = 2 ∨ id = 3 ∨ id = 4 ∨ id = 5 ∨ id = 6 ∨ id = 7 ∨ id = 8
            ∨ id = 9 ∨ id = 10 ∨ id = 11 ∨ id = 12) as Hcases by lia.
    destruct_or!; subst id; (split; [apply (bool_decide_unpack _)|]; vm_compute; reflexivity).
  - intros id Hid. rewrite GetMonthNameWithId_calendar.
    apply GetMonthNameWithId_loop_spec; [apply NoDup_calendar_ids|].
    intros k m Hin. unfold calendar, month_names in Hin. simpl in Hin.
    repeat (apply elem_of_cons in Hin as [Hin|Hin]; [inversion Hin; subst; simpl; lia|]).
    by apply elem_of_nil in Hin.
  - intros m Hm. unfold GetMonthFullName, GetMonthId, Months_at.
    destruct (Months !! m) as [info|] eqn:E; [|done].
    exfalso. apply Hm. apply Months_lookup in E.
    unfold calendar, month_names in E. simpl in E.
    repeat (apply elem_of_cons in E as [E|E]; [inversion E; subst; apply (bool_decide_unpack _); vm_compute; reflexivity|]).
    by apply elem_of_nil in E.
  - intros m1 m2 H1 H2 Heq.
    destruct (Hall m1 H1) as (_ & _ & <-). destruct (Hall m2 H2) as (_ & _ & <-).
    by rewrite Heq.
Qed.

End helpers_facts.
